(** * Fred: the reconciliation engine of [main.py]

    A shallow embedding of the parts of [main.py] that decide whether a
    fetched catalog snapshot is new, what is stored, when the daily check
    runs, and how the [/confirm] window is consumed.

    The module-level globals of the script ([posted_games],
    [posted_upcoming], [last_daily_run], [pending_confirmations]) and the two
    JSON files it rewrites become one explicit [State] record which every
    function takes and returns.  Everything the script observes from outside
    (the clock, the HTTP response, the guilds of the bot) is an argument.
    I/O the script performs is appended, in program order, to the [events]
    field of the state. *)

From stdpp Require Import base numbers option list strings gmap.

Local Open Scope Z_scope.

(** ** Data model *)

(** [datetime.now(CET)]: the wall-clock fields of a Python [datetime] and
    the offset of its [tzinfo] from UTC, in seconds (3600 or 7200 for
    Europe/Warsaw today).  pytz hands out one [tzinfo] object per offset, so
    two readings have the same [tzinfo] exactly when their offsets agree. *)
Record datetime := {
  year : Z; month : Z; day : Z;
  hour : Z; minute : Z; second : Z; microsecond : Z;
  utcoffset : Z
}.

(** [str(now.date())] is YYYY-MM-DD and [now.strftime("%Y-%m")] is YYYY-MM;
    both printings are injective, so the strings are kept as their fields. *)
Definition date_str : Type := Z * Z * Z.
Definition month_str : Type := Z * Z.

Definition date (now : datetime) : date_str := (year now, month now, day now).
Definition strftime_Ym (now : datetime) : month_str := (year now, month now).

(** [now.replace(hour=17, minute=1, second=0, microsecond=0)]: the [tzinfo]
    is kept. *)
Definition replace_17_01 (now : datetime) : datetime :=
  {| year := year now; month := month now; day := day now;
     hour := 17; minute := 1; second := 0; microsecond := 0;
     utcoffset := utcoffset now |}.

Definition is_leap (y : Z) : bool :=
  ((y mod 4 =? 0) && negb (y mod 100 =? 0)) || (y mod 400 =? 0).

Definition days_in_month (y m : Z) : Z :=
  if m =? 2 then (if is_leap y then 29 else 28)
  else if (m =? 4) || (m =? 6) || (m =? 9) || (m =? 11) then 30
  else 31.

(** Days before 1 January of year [y]. *)
Definition days_before_year (y : Z) : Z :=
  (y - 1) * 365 + (y - 1) / 4 - (y - 1) / 100 + (y - 1) / 400.

(** Days of year [y] before the first of month [m]. *)
Definition days_before_month (y m : Z) : Z :=
  match m with
  | 1 => 0 | 2 => 31 | 3 => 59 | 4 => 90 | 5 => 120 | 6 => 151
  | 7 => 181 | 8 => 212 | 9 => 243 | 10 => 273 | 11 => 304 | _ => 334
  end + (if (2 <? m) && is_leap y then 1 else 0).

(** [date.toordinal()]: 1 for 1 January of year 1. *)
Definition toordinal (t : datetime) : Z :=
  days_before_year (year t) + days_before_month (year t) (month t) + day t.

(** Microseconds since the start of ordinal day 0, read off the wall-clock
    fields: the scale on which [datetime - datetime] of one [tzinfo] and
    [datetime + timedelta] are computed. *)
Definition total_microseconds (t : datetime) : Z :=
  (((toordinal t * 24 + hour t) * 60 + minute t) * 60 + second t) * 1000000
  + microsecond t.

(** The same scale in UTC: the wall clock less the offset. *)
Definition instant (t : datetime) : Z :=
  total_microseconds t - utcoffset t * 1000000.

Definition lex (c : comparison) (k : comparison) : comparison :=
  match c with Eq => k | _ => c end.

(** The fields of two datetimes compared in order. *)
Definition fields_compare (a b : datetime) : comparison :=
  lex (year a ?= year b)
  (lex (month a ?= month b)
  (lex (day a ?= day b)
  (lex (hour a ?= hour b)
  (lex (minute a ?= minute b)
  (lex (second a ?= second b)
       (microsecond a ?= microsecond b)))))).

(** Comparison of two aware datetimes as Python makes it: field by field
    when the offsets agree, and otherwise by the sign of their difference,
    which is taken in UTC. *)
Definition dt_compare (a b : datetime) : comparison :=
  if decide (utcoffset a = utcoffset b) then fields_compare a b
  else instant a ?= instant b.

(** [a <= b] and [a >= b] on datetimes. *)
Definition dt_leb (a b : datetime) : bool :=
  match dt_compare a b with Gt => false | _ => true end.
Definition dt_geb (a b : datetime) : bool :=
  match dt_compare a b with Lt => false | _ => true end.

(** [now + timedelta(minutes=1)], carrying into the hour, day, month, year;
    the sum is made on the wall-clock fields and the [tzinfo] is kept. *)
Definition add_one_minute (now : datetime) : datetime :=
  if minute now <? 59 then
    {| year := year now; month := month now; day := day now;
       hour := hour now; minute := minute now + 1;
       second := second now; microsecond := microsecond now;
       utcoffset := utcoffset now |}
  else if hour now <? 23 then
    {| year := year now; month := month now; day := day now;
       hour := hour now + 1; minute := 0;
       second := second now; microsecond := microsecond now;
       utcoffset := utcoffset now |}
  else if day now <? days_in_month (year now) (month now) then
    {| year := year now; month := month now; day := day now + 1;
       hour := 0; minute := 0;
       second := second now; microsecond := microsecond now;
       utcoffset := utcoffset now |}
  else if month now <? 12 then
    {| year := year now; month := month now + 1; day := 1;
       hour := 0; minute := 0;
       second := second now; microsecond := microsecond now;
       utcoffset := utcoffset now |}
  else
    {| year := year now + 1; month := 1; day := 1;
       hour := 0; minute := 0;
       second := second now; microsecond := microsecond now;
       utcoffset := utcoffset now |}.

(** A catalog item: a JSON object.  [title g] is [g.get("title")]: a string,
    or [None] when the key is absent; the other fields only feed the
    embeds. *)
Record Game := {
  title : option string;
  description : option string;
  urlSlug : option string
}.

#[global] Instance Game_eq_dec : EqDecision Game.
Proof. solve_decision. Defined.

(** The decoded body of a successful response: a JSON object whose keys
    [currentGames] and [nextGames] may be absent. *)
Record Payload := {
  currentGames : option (list Game);
  nextGames : option (list Game);
  other_keys : bool
}.

(** What [session.get(EPIC_API_URL)] can produce.  A body that decodes is
    taken to be an object. *)
Inductive Body := MalformedBody | JsonObject (p : Payload).

Inductive Response :=
| TransportError
| TimedOut
| HttpStatus (status : Z) (body : Body).

Record Channel := { channel_id : Z; channel_name : string }.

#[global] Instance Channel_eq_dec : EqDecision Channel.
Proof. solve_decision. Defined.

Record Guild := { guild_name : string; text_channels : list Channel }.

(** One embed per game, as [make_embeds] builds them; the rendering of the
    fields is left out, the game, the footer mention and the [upcoming] flag
    are kept. *)
Record Embed := {
  embed_game : Game;
  embed_footer : option string;
  embed_upcoming : bool
}.

#[global] Instance Embed_eq_dec : EqDecision Embed.
Proof. solve_decision. Defined.

Inductive Message :=
| MsgCurrentHeader
| MsgUpcomingHeader
| MsgEmbed (e : Embed)
| MsgSameAsLastCheck (mention : string)
| MsgNoCurrentGames
| MsgNoPendingConfirmation.

#[global] Instance Message_eq_dec : EqDecision Message.
Proof. solve_decision. Defined.

(** [posted_games.json] as [save_posted] writes it. *)
Record PostedFile := {
  file_current : list Game;
  file_upcoming : list Game;
  file_last_daily_run : option date_str
}.

#[global] Instance PostedFile_eq_dec : EqDecision PostedFile.
Proof. solve_decision. Defined.

(** [api_calls.json]; either key may be missing from a file on disk. *)
Record ApiLog := {
  log_count : option Z;
  log_month : option month_str
}.

Inductive Event :=
| EvApiLogWrite (count : Z) (m : month_str)
| EvHttpGet
| EvPostedWrite (f : PostedFile)
| EvSend (c : Channel) (msg : Message).

#[global] Instance Event_eq_dec : EqDecision Event.
Proof. solve_decision. Defined.

(** The globals of the script, the two files, and the I/O done so far.  A
    file is [None] when it does not exist or does not decode. *)
Record State := {
  posted_games : list Game;
  posted_upcoming : list Game;
  last_daily_run : option date_str;
  pending_confirmations : gmap string datetime;
  POSTED_FILE : option PostedFile;
  API_CALL_LOG : option ApiLog;
  events : list Event
}.

Definition CHANNEL_NAME : string := "free-games".

(** ** State updates *)

Definition log_event (e : Event) (st : State) : State :=
  {| posted_games := posted_games st;
     posted_upcoming := posted_upcoming st;
     last_daily_run := last_daily_run st;
     pending_confirmations := pending_confirmations st;
     POSTED_FILE := POSTED_FILE st;
     API_CALL_LOG := API_CALL_LOG st;
     events := events st ++ [e] |}.

Definition set_API_CALL_LOG (f : ApiLog) (st : State) : State :=
  {| posted_games := posted_games st;
     posted_upcoming := posted_upcoming st;
     last_daily_run := last_daily_run st;
     pending_confirmations := pending_confirmations st;
     POSTED_FILE := POSTED_FILE st;
     API_CALL_LOG := Some f;
     events := events st |}.

Definition set_POSTED_FILE (f : PostedFile) (st : State) : State :=
  {| posted_games := posted_games st;
     posted_upcoming := posted_upcoming st;
     last_daily_run := last_daily_run st;
     pending_confirmations := pending_confirmations st;
     POSTED_FILE := Some f;
     API_CALL_LOG := API_CALL_LOG st;
     events := events st |}.

Definition set_pending_confirmations (pc : gmap string datetime) (st : State)
  : State :=
  {| posted_games := posted_games st;
     posted_upcoming := posted_upcoming st;
     last_daily_run := last_daily_run st;
     pending_confirmations := pc;
     POSTED_FILE := POSTED_FILE st;
     API_CALL_LOG := API_CALL_LOG st;
     events := events st |}.

(** The three globals [run_check] assigns on the changed path. *)
Definition set_posted (cur upc : list Game) (d : date_str) (st : State)
  : State :=
  {| posted_games := cur;
     posted_upcoming := upc;
     last_daily_run := Some d;
     pending_confirmations := pending_confirmations st;
     POSTED_FILE := POSTED_FILE st;
     API_CALL_LOG := API_CALL_LOG st;
     events := events st |}.

(** ** API call tracking *)

(** [get_api_call_count]: [(count, month)], with [0] and the empty month
    ([None]) for a missing key or an unreadable file. *)
Definition get_api_call_count (st : State) : Z * option month_str :=
  match API_CALL_LOG st with
  | Some data => (default 0 (log_count data), log_month data)
  | None => (0, None)
  end.

Definition increment_api_calls (now : datetime) (st : State) : Z * State :=
  let current_month := strftime_Ym now in
  let '(count, last_month) := get_api_call_count st in
  let count := if decide (last_month ≠ Some current_month) then 0 else count in
  let count := count + 1 in
  (count,
   log_event (EvApiLogWrite count current_month)
     (set_API_CALL_LOG
        {| log_count := Some count; log_month := Some current_month |} st)).

(** ** Startup load and [save_posted] *)

Definition load_posted (posted : option PostedFile) (api : option ApiLog)
  : State :=
  {| posted_games := from_option file_current [] posted;
     posted_upcoming := from_option file_upcoming [] posted;
     last_daily_run := posted ≫= file_last_daily_run;
     pending_confirmations := ∅;
     POSTED_FILE := posted;
     API_CALL_LOG := api;
     events := [] |}.

(** [{g.get("title") for g in games}] *)
Definition titles (games : list Game) : gset (option string) :=
  list_to_set (title <$> games).

Definition save_posted (st : State) : State :=
  let current_titles := titles (posted_games st) in
  let clean_upcoming :=
    filter (λ g, title g ∉ current_titles) (posted_upcoming st) in
  let f := {| file_current := posted_games st;
              file_upcoming := clean_upcoming;
              file_last_daily_run := last_daily_run st |} in
  log_event (EvPostedWrite f) (set_POSTED_FILE f st).

(** ** Helper functions *)

Definition get_free_game_channels (guilds : list Guild) : list Channel :=
  guild ← guilds;
  filter (λ channel, channel_name channel = CHANNEL_NAME) (text_channels guild).

(** Python truthiness of an optional string. *)
Definition truthy (s : option string) : bool :=
  match s with
  | Some s => negb (String.eqb s "")
  | None => false
  end.

(** [not data] is false exactly for a non-empty object. *)
Definition payload_truthy (p : Payload) : bool :=
  bool_decide (is_Some (currentGames p)) ||
  bool_decide (is_Some (nextGames p)) || other_keys p.

(** The call log is written first, then the request is attempted
    ([EvHttpGet]); what is printed, the warning past 58 calls included, is
    not recorded. *)
Definition fetch_games (now : datetime) (resp : Response) (st : State)
  : option Payload * State :=
  let '(call_count, st) := increment_api_calls now st in
  let st := log_event EvHttpGet st in
  match resp with
  | HttpStatus status body =>
      if decide (status ≠ 200) then (None, st)
      else match body with
           | JsonObject p => (Some p, st)
           | MalformedBody => (None, st)
           end
  | TransportError | TimedOut => (None, st)
  end.

Definition make_embeds (games : list Game) (ctx_mention : option string)
    (upcoming : bool) : list Embed :=
  (λ g, {| embed_game := g;
           embed_footer := if truthy ctx_mention then ctx_mention else None;
           embed_upcoming := upcoming |}) <$> games.

Definition are_games_same (new_games old_games : list Game) : bool :=
  let new_titles := titles new_games in
  let old_titles := titles old_games in
  bool_decide (new_titles = old_titles).

(** ** [run_check] *)

(** What [run_check] sees of the outside world during one call: the clock
    read by [increment_api_calls], the answer of the catalog, the guilds of
    the bot, and the clock read after the fetch (for the confirmation expiry
    at line 212 or the date marker at line 226). *)
Record Env := {
  now_fetch : datetime;
  response : Response;
  guilds : list Guild;
  now_after : datetime
}.

(** The return sites of [run_check].  [Failed] is [return False] (lines 194
    and 203); [Unchanged] is the [return True] of line 214, with whether a
    confirmation was stored; [Changed] is the [return True] of line 249, with
    the games whose embeds are posted. *)
Inductive ReconcileResult :=
| Failed
| Unchanged (confirmationArmed : bool)
| Changed (announcedCurrent announcedUpcoming : list Game).

(** The Python value [run_check] returns. *)
Definition returned (r : ReconcileResult) : bool :=
  match r with
  | Failed => false
  | Unchanged _ | Changed _ _ => true
  end.

(** The body of the [for channel in channels] loop.  A send that raises is
    only logged by the script; the sends are recorded as attempted. *)
Definition post_to_channel (embeds_current embeds_upcoming : list Embed)
    (channel : Channel) : list Event :=
  (match embeds_current with
   | [] => []
   | _ => EvSend channel MsgCurrentHeader
          :: ((λ e, EvSend channel (MsgEmbed e)) <$> embeds_current)
   end) ++
  (match embeds_upcoming with
   | [] => []
   | _ => EvSend channel MsgUpcomingHeader
          :: ((λ e, EvSend channel (MsgEmbed e)) <$> embeds_upcoming)
   end).

Definition log_events (es : list Event) (st : State) : State :=
  foldl (λ st e, log_event e st) st es.

Definition run_check (ctx_mention : option string) (force : bool)
    (interaction_channel : option Channel) (env : Env) (st : State)
  : ReconcileResult * State :=
  let '(data, st) := fetch_games (now_fetch env) (response env) st in
  match data with
  | None => (Failed, st)
  | Some data =>
    if negb (payload_truthy data) then (Failed, st) else
    let channels :=
      match interaction_channel with
      | Some c => [c]
      | None => get_free_game_channels (guilds env)
      end in
    match channels with
    | [] => (Failed, st)
    | _ :: _ =>
      let current_games := default [] (currentGames data) in
      let next_games := default [] (nextGames data) in
      let current_titles := titles current_games in
      if are_games_same current_games (posted_games st) && negb force then
        match ctx_mention, interaction_channel with
        | Some mention, Some c =>
            if truthy ctx_mention then
              (Unchanged true,
               log_event (EvSend c (MsgSameAsLastCheck mention))
                 (set_pending_confirmations
                    (<[mention := add_one_minute (now_after env)]>
                       (pending_confirmations st)) st))
            else (Unchanged false, st)
        | _, _ => (Unchanged false, st)
        end
      else
        let kept_upcoming :=
          filter (λ g, title g ∉ current_titles) (posted_upcoming st) in
        let new_upcoming :=
          filter (λ g, (title g ∉ current_titles)
                       ∧ (title g ∉ (title <$> kept_upcoming))) next_games in
        let st := set_posted current_games (kept_upcoming ++ new_upcoming)
                    (date (now_after env)) st in
        let st := save_posted st in
        let embeds_current := make_embeds current_games ctx_mention false in
        let embeds_upcoming := make_embeds new_upcoming ctx_mention true in
        let st :=
          log_events
            (channels ≫= post_to_channel embeds_current embeds_upcoming) st in
        (Changed current_games new_upcoming, st)
    end
  end.

(** ** Commands *)

(** [/check]: owner only, with the caller's mention and channel. *)
Definition check_slash (OWNER_ID user_id : Z) (mention : string)
    (channel : Channel) (env : Env) (st : State)
  : option ReconcileResult * State :=
  if decide (user_id ≠ OWNER_ID) then (None, st)
  else
    let '(result, st) := run_check (Some mention) false (Some channel) env st in
    (Some result, st).

(** [/confirm]: the follow-up messages sent to the caller, and the state. *)
Definition confirm_slash (mention : string) (now : datetime) (st : State)
  : list Message * State :=
  match pending_confirmations st !! mention with
  | Some expiry =>
      if dt_leb now expiry then
        let st := set_pending_confirmations
                    (delete mention (pending_confirmations st)) st in
        let embeds := make_embeds (posted_games st) (Some mention) false in
        match embeds with
        | [] => ([MsgNoCurrentGames], st)
        | _ => (MsgCurrentHeader :: (MsgEmbed <$> embeds), st)
        end
      else ([MsgNoPendingConfirmation], st)
  | None => ([MsgNoPendingConfirmation], st)
  end.

(** Whether [/confirm] took the re-display branch. *)
Definition redisplayed (reply : list Message) : bool :=
  bool_decide (reply ≠ [MsgNoPendingConfirmation]).

(** ** Daily scheduled task *)

(** One iteration of the [tasks.loop(minutes=15)] body: the clock it reads,
    and what [run_check] would see if it is called. *)
Record Tick := { tick_now : datetime; tick_env : Env }.

Definition daily_check (t : Tick) (st : State)
  : option ReconcileResult * State :=
  let now := tick_now t in
  let today_str := date now in
  let target_time := replace_17_01 now in
  if dt_geb now target_time && bool_decide (last_daily_run st ≠ Some today_str)
  then
    let '(result, st) := run_check None false None (tick_env t) st in
    (Some result, st)
  else (None, st).

(** The loop over successive ticks; the results of the calls to
    [run_check], in order ([None] for a tick that did not call it). *)
Fixpoint daily_loop (ticks : list Tick) (st : State)
  : list (option ReconcileResult) * State :=
  match ticks with
  | [] => ([], st)
  | t :: ticks =>
      let '(r, st) := daily_check t st in
      let '(rs, st) := daily_loop ticks st in
      (r :: rs, st)
  end.

(** How many catalog requests a trace of events holds. *)
Definition http_gets (es : list Event) : nat :=
  length (filter (λ e, e = EvHttpGet) es).

(** ** Names used in the statements *)

(** [FetchError]: the answers for which [fetch_games] has no snapshot to
    return: a transport error, a timeout, a status other than 200, or a body
    that does not decode. *)
Definition FetchError (resp : Response) : Prop :=
  match resp with
  | TransportError | TimedOut => True
  | HttpStatus status body => status ≠ 200 ∨ body = MalformedBody
  end.

(** The count [increment_api_calls] writes, read off the stored log. *)
Definition next_count (now : datetime) (st : State) : Z :=
  if decide ((get_api_call_count st).2 = Some (strftime_Ym now))
  then (get_api_call_count st).1 + 1
  else 1.

(** The channels [run_check] posts to. *)
Definition destinations (interaction_channel : option Channel) (env : Env)
  : list Channel :=
  match interaction_channel with
  | Some c => [c]
  | None => get_free_game_channels (guilds env)
  end.

(** The games of a payload, as [data.get(key, [])] reads them. *)
Definition current_of (p : Payload) : list Game := default [] (currentGames p).
Definition next_of (p : Payload) : list Game := default [] (nextGames p).

(** No title key is shared by the two lists. *)
Definition titles_disjoint (cur upc : list Game) : Prop :=
  ∀ g u, g ∈ cur → u ∈ upc → title g ≠ title u.

(** The two list comprehensions of the changed path of [run_check] (lines
    219 and 222), named for the statements below. *)
Definition kept_upcoming (current_games upcoming : list Game) : list Game :=
  filter (λ g, title g ∉ titles current_games) upcoming.

Definition new_upcoming (current_games upcoming next_games : list Game)
  : list Game :=
  filter (λ g, (title g ∉ titles current_games)
               ∧ (title g ∉ (title <$> kept_upcoming current_games upcoming)))
    next_games.

(** The state [run_check] leaves on its unchanged path when it stores a
    confirmation for [mention]. *)
Definition armed (mention : string) (c : Channel) (now : datetime) (st : State)
  : State :=
  log_event (EvSend c (MsgSameAsLastCheck mention))
    (set_pending_confirmations
       (<[mention := add_one_minute now]> (pending_confirmations st)) st).

(** What a call that ends at one of the two [return False] leaves behind:
    the globals, the confirmations and the state file as they were, and the
    call log written once and one request sent. *)
Definition only_fetched (now : datetime) (st st' : State) : Prop :=
  posted_games st' = posted_games st ∧
  posted_upcoming st' = posted_upcoming st ∧
  last_daily_run st' = last_daily_run st ∧
  pending_confirmations st' = pending_confirmations st ∧
  POSTED_FILE st' = POSTED_FILE st ∧
  events st' =
    events st ++ [EvApiLogWrite (next_count now st) (strftime_Ym now); EvHttpGet].

(** A tick is due when its clock is at or past 17:01 of its own day. *)
Definition due (t : Tick) : bool :=
  dt_geb (tick_now t) (replace_17_01 (tick_now t)).

(** What the changed path of [run_check] leaves in the globals and in the
    state file, for new current games [cur], snapshot upcoming games [next]
    and the clock reading [now]. *)
Definition committed (cur next : list Game) (now : datetime) (st st' : State)
  : Prop :=
  let upc := kept_upcoming cur (posted_upcoming st)
             ++ new_upcoming cur (posted_upcoming st) next in
  posted_games st' = cur ∧
  posted_upcoming st' = upc ∧
  last_daily_run st' = Some (date now) ∧
  pending_confirmations st' = pending_confirmations st ∧
  POSTED_FILE st' =
    Some {| file_current := cur;
            file_upcoming := kept_upcoming cur upc;
            file_last_daily_run := Some (date now) |}.

(** The stored lists, the date marker and the state file are as before, and
    no event since [st] is a write of the state file. *)
Definition untouched (st st' : State) : Prop :=
  posted_games st' = posted_games st ∧
  posted_upcoming st' = posted_upcoming st ∧
  last_daily_run st' = last_daily_run st ∧
  POSTED_FILE st' = POSTED_FILE st ∧
  ∃ es, events st' = events st ++ es ∧ ∀ f, EvPostedWrite f ∉ es.

(** The confirmations after an unchanged result: one entry stored for the
    caller when [confirmed], none touched otherwise. *)
Definition arming (ctx_mention : option string)
    (interaction_channel : option Channel) (now : datetime)
    (confirmed : bool) (st st' : State) : Prop :=
  if confirmed then
    ∃ mention,
      ctx_mention = Some mention ∧ mention ≠ "" ∧
      is_Some interaction_channel ∧
      pending_confirmations st' =
        <[mention := add_one_minute now]> (pending_confirmations st)
  else
    (truthy ctx_mention = false ∨ interaction_channel = None) ∧
    pending_confirmations st' = pending_confirmations st.

(** A payload holding exactly the two lists of a snapshot. *)
Definition snapshot (current upcoming : list Game) : Payload :=
  {| currentGames := Some current; nextGames := Some upcoming;
     other_keys := false |}.

(** ** Concrete inputs *)

Definition titled (t : string) : Game :=
  {| title := Some t; description := None; urlSlug := None |}.

Definition untitled (d : string) : Game :=
  {| title := None; description := Some d; urlSlug := None |}.

Definition free_games : Channel :=
  {| channel_id := 1; channel_name := "free-games" |}.

Definition general : Channel :=
  {| channel_id := 2; channel_name := "general" |}.

Definition a_guild : Guild :=
  {| guild_name := "guild"; text_channels := [general; free_games] |}.

Definition a_guild_without_channel : Guild :=
  {| guild_name := "guild"; text_channels := [general] |}.

(** A clock reading in March 2025, in winter time (UTC+1). *)
Definition march (d h m s : Z) : datetime :=
  {| year := 2025; month := 3; day := d;
     hour := h; minute := m; second := s; microsecond := 0;
     utcoffset := 3600 |}.

(** A clock reading in March 2025, in summer time (UTC+2), which starts on
    30 March at 02:00 winter time. *)
Definition march_summer (d h m s : Z) : datetime :=
  {| year := 2025; month := 3; day := d;
     hour := h; minute := m; second := s; microsecond := 0;
     utcoffset := 7200 |}.

Definition env_at (now : datetime) (resp : Response) (gs : list Guild) : Env :=
  {| now_fetch := now; response := resp; guilds := gs; now_after := now |}.

Definition ok (current upcoming : list Game) : Response :=
  HttpStatus 200 (JsonObject (snapshot current upcoming)).

Definition tick_at (now : datetime) (resp : Response) (gs : list Guild) : Tick :=
  {| tick_now := now; tick_env := env_at now resp gs |}.

Definition owner : string := "<@1>".

(** The state after the scheduled check of 13 March found Alpha. *)
Definition after_13_march : State :=
  (daily_check (tick_at (march 13 17 1 0) (ok [titled "Alpha"] []) [a_guild])
     (load_posted None None)).2.

(** The ticks of 14 March from 17:01 on, the catalog still listing Alpha. *)
Definition ticks_14_march : list Tick :=
  [tick_at (march 14 17 1 0) (ok [titled "Alpha"] []) [a_guild];
   tick_at (march 14 17 16 0) (ok [titled "Alpha"] []) [a_guild];
   tick_at (march 14 17 31 0) (ok [titled "Alpha"] []) [a_guild]].

(** The owner runs [/check] at 18:00:00 on 14 March with nothing new. *)
Definition after_manual_check : State :=
  (check_slash 1 1 owner general
     (env_at (march 14 18 0 0) (ok [titled "Alpha"] []) [a_guild])
     after_13_march).2.

(** A stored upcoming entry without a title. *)
Definition with_untitled_upcoming : State :=
  (run_check None false None
     (env_at (march 13 17 1 0) (ok [titled "Beta"] [untitled "A"]) [a_guild])
     (load_posted None None)).2.

(** A stored current entry without a title. *)
Definition with_untitled_current : State :=
  (run_check None false None
     (env_at (march 13 17 1 0) (ok [untitled "A"] []) [a_guild])
     (load_posted None None)).2.

(** ** Calendar arithmetic of [datetime] *)

(** The field ranges of a Python [datetime]; the upper bound 9999 of the
    year, past which the arithmetic raises, is left out. *)
Definition valid_datetime (t : datetime) : Prop :=
  1 ≤ year t ∧ 1 ≤ month t ≤ 12 ∧
  1 ≤ day t ≤ days_in_month (year t) (month t) ∧
  0 ≤ hour t < 24 ∧ 0 ≤ minute t < 60 ∧ 0 ≤ second t < 60 ∧
  0 ≤ microsecond t < 1000000.

(** [target + timedelta(days=1)], carrying into the month and the year; the
    [tzinfo] is kept. *)
Definition add_one_day (t : datetime) : datetime :=
  if day t <? days_in_month (year t) (month t) then
    {| year := year t; month := month t; day := day t + 1;
       hour := hour t; minute := minute t;
       second := second t; microsecond := microsecond t;
       utcoffset := utcoffset t |}
  else if month t <? 12 then
    {| year := year t; month := month t + 1; day := 1;
       hour := hour t; minute := minute t;
       second := second t; microsecond := microsecond t;
       utcoffset := utcoffset t |}
  else
    {| year := year t + 1; month := 1; day := 1;
       hour := hour t; minute := minute t;
       second := second t; microsecond := microsecond t;
       utcoffset := utcoffset t |}.

(** ** [/next] *)

(** What the embed of [/next] shows: the target (its time as the
    description, its date as the Date field) and the Time Remaining field
    as hours and minutes. *)
Record NextCheck := {
  next_target : datetime;
  next_hours : Z;
  next_minutes : Z
}.

(** [target] has the [tzinfo] of [now], so [target - now] is the difference
    of the wall-clock fields.  [time_diff.total_seconds()] is kept in whole
    microseconds; the floor divisions by 3600 and 60 seconds are the same on
    that scale. *)
Definition next_slash (now : datetime) : NextCheck :=
  let target := replace_17_01 now in
  let target := if dt_geb now target then add_one_day target else target in
  let time_diff := total_microseconds target - total_microseconds now in
  let hours := time_diff / 3600000000 in
  let minutes := (time_diff mod 3600000000) / 60000000 in
  {| next_target := target; next_hours := hours; next_minutes := minutes |}.

(** ** [/current] and [/upcoming] *)

(** [/current]: the follow-up messages; no global is assigned. *)
Definition current_slash (mention : string) (st : State) : list Message :=
  let embeds := make_embeds (posted_games st) (Some mention) false in
  match embeds with
  | [] => [MsgNoCurrentGames]
  | _ => MsgCurrentHeader :: (MsgEmbed <$> embeds)
  end.

(** The follow-up of [/upcoming]: the text "No upcoming games to display."
    or the header and the embeds. *)
Inductive UpcomingReply :=
| NoUpcomingGames
| UpcomingGames (msgs : list Message).

Definition upcoming_slash (mention : string) (st : State) : UpcomingReply :=
  let embeds := make_embeds (posted_upcoming st) (Some mention) true in
  match embeds with
  | [] => NoUpcomingGames
  | _ => UpcomingGames (MsgUpcomingHeader :: (MsgEmbed <$> embeds))
  end.

(** ** The picture of an embed *)

(** One entry of [keyImages]: [img.get("type")] and [img.get("url")]. *)
Record KeyImage := { img_type : option string; img_url : option string }.

(** [img_type in ["DieselStoreFrontWide", "OfferImageWide"]] *)
Definition is_wide_type (ty : option string) : bool :=
  bool_decide (ty = Some "DieselStoreFrontWide")
  || bool_decide (ty = Some "OfferImageWide").

(** The [for img in g.get("keyImages", [])] loop of [make_embeds] (lines
    152-158), from the value [thumbnail_url] has so far; the result is
    [(image_url, thumbnail_url)] when the loop ends or breaks. *)
Fixpoint key_images_loop (wide_image : bool) (imgs : list KeyImage)
    (thumbnail_url : option string) : option string * option string :=
  match imgs with
  | [] => (None, thumbnail_url)
  | img :: imgs =>
      if wide_image && is_wide_type (img_type img) then
        (img_url img, thumbnail_url)
      else if bool_decide (img_type img = Some "Thumbnail") then
        key_images_loop wide_image imgs (img_url img)
      else key_images_loop wide_image imgs thumbnail_url
  end.

(** What is set on the embed: [set_image(url=image_url)],
    [set_thumbnail(url=thumbnail_url)], or neither. *)
Inductive Picture :=
| SetImage (url : option string)
| SetThumbnail (url : option string)
| NoPicture.

(** Lines 149-161 and 172-175 of [make_embeds]. *)
Definition embed_picture (wide_image : bool) (keyImages : list KeyImage)
  : Picture :=
  let '(image_url, thumbnail_url) := key_images_loop wide_image keyImages None in
  let image_url :=
    if wide_image && negb (truthy image_url) then thumbnail_url
    else image_url in
  if wide_image && truthy image_url then SetImage image_url
  else if truthy thumbnail_url then SetThumbnail thumbnail_url
  else NoPicture.

(** ** [on_ready] *)

(** The inner loop of [on_ready] (lines 266-271): the first channel of the
    guild named free-games, where the loop breaks. *)
Fixpoint first_free_games_channel (channels : list Channel) : option Channel :=
  match channels with
  | [] => None
  | channel :: channels =>
      if decide (channel_name channel = CHANNEL_NAME) then Some channel
      else first_free_games_channel channels
  end.

(** The outer loop (lines 264-275): [(detected_channels,
    guilds_without_channel)]. *)
Fixpoint scan_guilds (guilds : list Guild) : list Z * list Guild :=
  match guilds with
  | [] => ([], [])
  | guild :: guilds =>
      let '(detected_channels, guilds_without_channel) := scan_guilds guilds in
      match first_free_games_channel (text_channels guild) with
      | Some channel => (channel_id channel :: detected_channels,
                         guilds_without_channel)
      | None => (detected_channels, guild :: guilds_without_channel)
      end
  end.

(** [guild.system_channel or guild.text_channels[0] if guild.text_channels
    else None]: the conditional binds weaker than [or]. *)
Definition target_channel (system_channel : option Channel) (guild : Guild)
  : option Channel :=
  match text_channels guild with
  | [] => None
  | first :: _ =>
      match system_channel with
      | Some c => Some c
      | None => Some first
      end
  end.

(** The channels that get the setup notice (lines 280-300): the target of
    each guild without a free-games channel, where there is one.
    [system_channel_of] is [guild.system_channel]. *)
Definition setup_notices (system_channel_of : Guild → option Channel)
    (guilds : list Guild) : list Channel :=
  omap (λ guild, target_channel (system_channel_of guild) guild)
    (scan_guilds guilds).2.

(** ** [/setup] *)

Inductive SetupReply :=
| MustBeUsedInServer
| ChannelAlreadyExists
| FredNeedsManageChannels
| YouNeedManageChannels
| ChannelCreated (new_channel : Channel)
| FailedToCreateChannel.

(** [/setup].  [created] is what [guild.create_text_channel] does: [Some id]
    when the platform creates the channel (named free-games, with that id,
    listed after the guild's other channels), [None] when it raises.  The
    result is the reply and the guild as it is afterwards. *)
Definition setup_slash (guild : option Guild) (me_manage_channels : bool)
    (user_manage_channels : bool) (created : option Z)
  : SetupReply * option Guild :=
  match guild with
  | None => (MustBeUsedInServer, guild)
  | Some g =>
      match first_free_games_channel (text_channels g) with
      | Some _ => (ChannelAlreadyExists, guild)
      | None =>
          if negb me_manage_channels then (FredNeedsManageChannels, guild)
          else if negb user_manage_channels then (YouNeedManageChannels, guild)
          else match created with
               | Some id =>
                   let new_channel :=
                     {| channel_id := id; channel_name := CHANNEL_NAME |} in
                   (ChannelCreated new_channel,
                    Some {| guild_name := guild_name g;
                            text_channels := text_channels g ++ [new_channel] |})
               | None => (FailedToCreateChannel, guild)
               end
      end
  end.

(** ** Successive checks *)

(** Successive calls of [run_check], each with its own arguments
    [(ctx_mention, force, interaction_channel, env)]. *)
Fixpoint run_checks
    (calls : list (option string * bool * option Channel * Env)) (st : State)
  : State :=
  match calls with
  | [] => st
  | (ctx_mention, force, interaction_channel, env) :: calls =>
      run_checks calls (run_check ctx_mention force interaction_channel env st).2
  end.

(** * Properties *)

(** ** Frame properties of the fetch *)

Section Fetch.
Variables (now : datetime) (resp : Response) (st : State).

Lemma increment_api_calls_count :
  (increment_api_calls now st).1 = next_count now st.
Proof.
  unfold increment_api_calls, next_count.
  destruct (get_api_call_count st) as [count last_month]; simpl.
  repeat case_decide; first [tauto | lia].
Qed.

Lemma increment_api_calls_state :
  (increment_api_calls now st).2 =
  log_event (EvApiLogWrite (next_count now st) (strftime_Ym now))
    (set_API_CALL_LOG
       {| log_count := Some (next_count now st);
          log_month := Some (strftime_Ym now) |} st).
Proof.
  rewrite <- increment_api_calls_count.
  unfold increment_api_calls.
  destruct (get_api_call_count st) as [count last_month]; reflexivity.
Qed.

Lemma fetch_games_state :
  (fetch_games now resp st).2 =
  log_event EvHttpGet (increment_api_calls now st).2.
Proof.
  unfold fetch_games.
  destruct (increment_api_calls now st) as [call_count st1]; simpl.
  destruct resp as [| |status [|p]]; try reflexivity;
    case_decide; reflexivity.
Qed.

Lemma fetch_games_data (p : Payload) :
  (fetch_games now resp st).1 = Some p ↔ resp = HttpStatus 200 (JsonObject p).
Proof.
  unfold fetch_games.
  destruct (increment_api_calls now st) as [call_count st1]; simpl.
  destruct resp as [| |status [|q]]; simpl; try (split; congruence);
    case_decide; simpl; split; intros; simplify_eq; try reflexivity;
    first [congruence | lia].
Qed.

Lemma fetch_games_error : FetchError resp → (fetch_games now resp st).1 = None.
Proof.
  intros Herr.
  destruct (fetch_games now resp st).1 as [p|] eqn:Hd; [|reflexivity].
  apply fetch_games_data in Hd. subst resp. simpl in Herr.
  destruct Herr; congruence.
Qed.

Lemma fetch_games_frame :
  let st' := (fetch_games now resp st).2 in
  posted_games st' = posted_games st ∧
  posted_upcoming st' = posted_upcoming st ∧
  last_daily_run st' = last_daily_run st ∧
  pending_confirmations st' = pending_confirmations st ∧
  POSTED_FILE st' = POSTED_FILE st ∧
  events st' =
    events st ++
    [EvApiLogWrite (next_count now st) (strftime_Ym now); EvHttpGet].
Proof.
  simpl. rewrite fetch_games_state, increment_api_calls_state. simpl.
  rewrite <- app_assoc. repeat split.
Qed.
End Fetch.

(** The count [increment_api_calls] writes, read off the call log itself. *)
Lemma next_count_stored (now : datetime) (st : State) :
  next_count now st =
  match API_CALL_LOG st with
  | Some log =>
      if decide (log_month log = Some (strftime_Ym now))
      then default 0 (log_count log) + 1
      else 1
  | None => 1
  end.
Proof.
  unfold next_count, get_api_call_count.
  destruct (API_CALL_LOG st) as [log|]; reflexivity.
Qed.

(** C9: every call of [fetch_games], whatever the answer of the catalog,
    first rewrites the call log and only then issues the request; the count
    written is 1 when the month stored in the log is not the current one (or
    there is no log, or no month in it) and the count stored in the log plus
    one otherwise, and it is stored with the current month. *)
Theorem fetch_games_counts_every_attempt
    (now : datetime) (resp : Response) (st : State) :
  let st' := (fetch_games now resp st).2 in
  let count :=
    match API_CALL_LOG st with
    | Some log =>
        if decide (log_month log = Some (strftime_Ym now))
        then default 0 (log_count log) + 1
        else 1
    | None => 1
    end in
  (increment_api_calls now st).1 = count ∧
  API_CALL_LOG st' =
    Some {| log_count := Some count; log_month := Some (strftime_Ym now) |} ∧
  events st' = events st ++ [EvApiLogWrite count (strftime_Ym now); EvHttpGet].
Proof.
  simpl. rewrite <- next_count_stored.
  split; [apply increment_api_calls_count|].
  split; [|apply fetch_games_frame].
  rewrite fetch_games_state, increment_api_calls_state. reflexivity.
Qed.

(** ** The return sites of [run_check] *)

Lemma log_events_app (es : list Event) (st : State) :
  log_events es st =
  {| posted_games := posted_games st;
     posted_upcoming := posted_upcoming st;
     last_daily_run := last_daily_run st;
     pending_confirmations := pending_confirmations st;
     POSTED_FILE := POSTED_FILE st;
     API_CALL_LOG := API_CALL_LOG st;
     events := events st ++ es |}.
Proof.
  unfold log_events. revert st.
  induction es as [|e es IH]; intros st; simpl.
  - rewrite app_nil_r. destruct st; reflexivity.
  - rewrite IH. simpl. rewrite <- app_assoc. reflexivity.
Qed.

Section RunCheck.
Variables (ctx_mention : option string) (force : bool)
          (interaction_channel : option Channel) (env : Env) (st : State).

Let fetched := fetch_games (now_fetch env) (response env) st.

(** [run_check] with its fetch named and the helper names folded. *)
Lemma run_check_unfold :
  run_check ctx_mention force interaction_channel env st =
  match fetched.1 with
  | None => (Failed, fetched.2)
  | Some data =>
    if negb (payload_truthy data) then (Failed, fetched.2) else
    match destinations interaction_channel env with
    | [] => (Failed, fetched.2)
    | channels =>
      if are_games_same (current_of data) (posted_games fetched.2)
         && negb force
      then
        match ctx_mention, interaction_channel with
        | Some mention, Some c =>
            if truthy ctx_mention
            then (Unchanged true, armed mention c (now_after env) fetched.2)
            else (Unchanged false, fetched.2)
        | _, _ => (Unchanged false, fetched.2)
        end
      else
        let upc := new_upcoming (current_of data)
                     (posted_upcoming fetched.2) (next_of data) in
        (Changed (current_of data) upc,
         log_events
           (channels ≫=
              post_to_channel (make_embeds (current_of data) ctx_mention false)
                              (make_embeds upc ctx_mention true))
           (save_posted
              (set_posted (current_of data)
                 (kept_upcoming (current_of data) (posted_upcoming fetched.2)
                  ++ upc)
                 (date (now_after env)) fetched.2)))
    end
  end.
Proof.
  unfold run_check, fetched.
  destruct (fetch_games (now_fetch env) (response env) st) as [[data|] st1];
    simpl; [|reflexivity].
  destruct (payload_truthy data); simpl; [|reflexivity].
  unfold destinations.
  destruct interaction_channel as [c|]; simpl.
  - reflexivity.
  - destruct (get_free_game_channels (guilds env)); reflexivity.
Qed.
End RunCheck.

Section Failed.
Variables (ctx_mention : option string) (force : bool)
          (interaction_channel : option Channel) (env : Env) (st : State).

Lemma run_check_no_data :
  (fetch_games (now_fetch env) (response env) st).1 = None →
  run_check ctx_mention force interaction_channel env st =
  (Failed, (fetch_games (now_fetch env) (response env) st).2).
Proof. intros H. rewrite run_check_unfold, H. reflexivity. Qed.

Lemma run_check_no_channel :
  destinations interaction_channel env = [] →
  run_check ctx_mention force interaction_channel env st =
  (Failed, (fetch_games (now_fetch env) (response env) st).2).
Proof.
  intros H. rewrite run_check_unfold, H.
  destruct (fetch_games _ _ _).1 as [data|]; [|reflexivity].
  destruct (payload_truthy data); reflexivity.
Qed.

Lemma run_check_Failed_frame (st' : State) :
  run_check ctx_mention force interaction_channel env st = (Failed, st') →
  only_fetched (now_fetch env) st st'.
Proof.
  rewrite run_check_unfold.
  pose proof (fetch_games_frame (now_fetch env) (response env) st) as Hfr.
  simpl in Hfr.
  destruct (fetch_games _ _ _).1 as [data|]; [|intros [= <-]; exact Hfr].
  destruct (payload_truthy data); simpl; [|intros [= <-]; exact Hfr].
  destruct (destinations interaction_channel env) as [|c cs];
    [intros [= <-]; exact Hfr|].
  destruct (_ && _).
  - destruct ctx_mention, interaction_channel; try discriminate.
    destruct (truthy _); discriminate.
  - discriminate.
Qed.
End Failed.

(** C5: when the catalog answers with a transport error, a timeout, a status
    other than 200 or an undecodable body, [fetch_games] returns no data and
    [run_check] returns at its first [return False]: the stored current and
    upcoming lists, the date marker, the confirmations and the state file are
    what they were, and nothing but the call log was written. *)
Theorem run_check_fetch_error_mutates_nothing
    (ctx_mention : option string) (force : bool)
    (interaction_channel : option Channel) (env : Env) (st : State) :
  FetchError (response env) →
  (fetch_games (now_fetch env) (response env) st).1 = None ∧
  (run_check ctx_mention force interaction_channel env st).1 = Failed ∧
  only_fetched (now_fetch env) st
    (run_check ctx_mention force interaction_channel env st).2.
Proof.
  intros Herr.
  pose proof (fetch_games_error (now_fetch env) _ st Herr) as Hnone.
  split; [exact Hnone|].
  rewrite run_check_no_data by exact Hnone. simpl.
  split; [reflexivity|]. apply fetch_games_frame.
Qed.

(** ** The scheduler *)

Lemma daily_check_runs (t : Tick) (st : State) :
  due t = true →
  last_daily_run st ≠ Some (date (tick_now t)) →
  daily_check t st =
  (Some (run_check None false None (tick_env t) st).1,
   (run_check None false None (tick_env t) st).2).
Proof.
  intros Hdue Hnot. unfold daily_check. unfold due in Hdue. rewrite Hdue.
  rewrite bool_decide_true by exact Hnot. simpl.
  destruct (run_check _ _ _ _ _); reflexivity.
Qed.

Lemma daily_check_skips (t : Tick) (st : State) :
  last_daily_run st = Some (date (tick_now t)) →
  daily_check t st = (None, st).
Proof.
  intros Hran. unfold daily_check.
  rewrite bool_decide_false by (intros Hne; exact (Hne Hran)).
  rewrite andb_false_r. reflexivity.
Qed.

Lemma http_gets_only_fetched (now : datetime) (st st' : State) :
  only_fetched now st st' →
  http_gets (events st') = S (http_gets (events st)).
Proof.
  intros (_ & _ & _ & _ & _ & Hev). rewrite Hev. unfold http_gets.
  rewrite filter_app, length_app.
  rewrite filter_cons_False by discriminate.
  rewrite filter_cons_True by reflexivity. simpl. lia.
Qed.

(** C10: on a day whose check has not run, every tick at or past 17:01 that
    finds no channel named free-games calls [run_check], which sends one
    request to the catalog and returns [False] whatever was fetched; the
    stored lists, the date marker and the state file stay as they were, so
    each of the following ticks of that day does the same again. *)
Theorem no_channel_retries_every_tick
    (d : date_str) (ticks : list Tick) (st : State) :
  Forall (λ t, date (tick_now t) = d ∧ due t = true
               ∧ get_free_game_channels (guilds (tick_env t)) = []) ticks →
  last_daily_run st ≠ Some d →
  (daily_loop ticks st).1 = replicate (length ticks) (Some Failed) ∧
  let st' := (daily_loop ticks st).2 in
  posted_games st' = posted_games st ∧
  posted_upcoming st' = posted_upcoming st ∧
  last_daily_run st' = last_daily_run st ∧
  POSTED_FILE st' = POSTED_FILE st ∧
  http_gets (events st') = (http_gets (events st) + length ticks)%nat.
Proof.
  intros Hticks. revert st.
  induction Hticks as [|t ticks (Hd & Hdue & Hch) _ IH]; intros st Hnot.
  - simpl. rewrite Nat.add_0_r. repeat split.
  - subst d. simpl.
    rewrite (daily_check_runs t st Hdue Hnot).
    rewrite (run_check_no_channel None false None (tick_env t) st Hch). simpl.
    pose proof (fetch_games_frame (now_fetch (tick_env t))
                  (response (tick_env t)) st) as Hfr.
    set (st1 := (fetch_games _ _ st).2) in *.
    pose proof (http_gets_only_fetched _ _ _ Hfr) as Hgets.
    destruct Hfr as (Hg & Hu & Hl & _ & Hf & _).
    specialize (IH st1). rewrite Hl in IH. specialize (IH Hnot).
    destruct (daily_loop ticks st1) as [rs st2]. simpl in *.
    destruct IH as (-> & Hg2 & Hu2 & Hl2 & Hf2 & Hn2).
    repeat split; try congruence. lia.
Qed.

(** ** The changed path *)

Section Changed.
Variables (ctx_mention : option string) (force : bool)
          (interaction_channel : option Channel) (env : Env) (st : State).

Lemma run_check_changed_path (p : Payload) :
  response env = HttpStatus 200 (JsonObject p) →
  payload_truthy p = true →
  destinations interaction_channel env ≠ [] →
  are_games_same (current_of p) (posted_games st) && negb force = false →
  ∃ st',
    run_check ctx_mention force interaction_channel env st =
    (Changed (current_of p)
       (new_upcoming (current_of p) (posted_upcoming st) (next_of p)), st') ∧
    committed (current_of p) (next_of p) (now_after env) st st'.
Proof.
  intros Hresp Htruthy Hdest Hsame.
  rewrite run_check_unfold.
  pose proof (fetch_games_frame (now_fetch env) (response env) st) as Hfr.
  simpl in Hfr. destruct Hfr as (Hg & Hu & Hl & Hp & Hf & _).
  apply (fetch_games_data (now_fetch env) _ st) in Hresp. rewrite Hresp.
  rewrite Htruthy. simpl.
  destruct (destinations interaction_channel env) as [|c cs]; [done|].
  rewrite Hg, Hu, Hsame. simpl.
  eexists. split; [reflexivity|].
  rewrite log_events_app. unfold committed. simpl.
  rewrite Hp. repeat split.
Qed.

Lemma run_check_Changed_inv (cur upc : list Game) (st' : State) :
  run_check ctx_mention force interaction_channel env st
    = (Changed cur upc, st') →
  ∃ p,
    response env = HttpStatus 200 (JsonObject p) ∧
    payload_truthy p = true ∧
    destinations interaction_channel env ≠ [] ∧
    are_games_same (current_of p) (posted_games st) && negb force = false ∧
    cur = current_of p ∧
    upc = new_upcoming cur (posted_upcoming st) (next_of p) ∧
    committed cur (next_of p) (now_after env) st st'.
Proof.
  intros Hrun.
  destruct (fetch_games (now_fetch env) (response env) st).1
    as [p|] eqn:Hdata;
    [|rewrite run_check_no_data in Hrun by exact Hdata; discriminate].
  pose proof Hdata as Hresp. apply fetch_games_data in Hresp.
  exists p. split; [exact Hresp|].
  destruct (payload_truthy p) eqn:Htruthy;
    [|rewrite run_check_unfold, Hdata, Htruthy in Hrun; discriminate].
  split; [reflexivity|].
  destruct (decide (destinations interaction_channel env = [])) as [Hd|Hd];
    [rewrite run_check_no_channel in Hrun by exact Hd; discriminate|].
  split; [exact Hd|].
  destruct (are_games_same (current_of p) (posted_games st) && negb force)
    eqn:Hsame.
  - rewrite run_check_unfold, Hdata, Htruthy in Hrun. simpl in Hrun.
    pose proof (fetch_games_frame (now_fetch env) (response env) st) as Hfr.
    simpl in Hfr. destruct Hfr as (Hg & _).
    rewrite Hg, Hsame in Hrun.
    destruct (destinations interaction_channel env); [done|].
    destruct ctx_mention, interaction_channel; try discriminate.
    destruct (truthy _); discriminate.
  - split; [reflexivity|].
    destruct (run_check_changed_path p Hresp Htruthy Hd Hsame)
      as (st'' & Heq & Hcommitted).
    rewrite Heq in Hrun. injection Hrun as <- <- <-. auto.
Qed.
End Changed.

(** ** The unchanged path *)

Lemma truthy_Some (s : string) : truthy (Some s) = true ↔ s ≠ "".
Proof.
  simpl. destruct (String.eqb_spec s ""); simpl; split; intros; congruence.
Qed.

Section Unchanged.
Variables (ctx_mention : option string) (force : bool)
          (interaction_channel : option Channel) (env : Env) (st : State).

Lemma untouched_fetched :
  untouched st (fetch_games (now_fetch env) (response env) st).2.
Proof.
  destruct (fetch_games_frame (now_fetch env) (response env) st)
    as (Hg & Hu & Hl & _ & Hf & He).
  repeat split; try assumption.
  eexists. split; [exact He|].
  intros f Hin. repeat (apply elem_of_cons in Hin as [Hin|Hin]; [done|]).
  by apply elem_of_nil in Hin.
Qed.

Lemma run_check_unchanged_path (p : Payload) :
  response env = HttpStatus 200 (JsonObject p) →
  payload_truthy p = true →
  destinations interaction_channel env ≠ [] →
  are_games_same (current_of p) (posted_games st) && negb force = true →
  ∃ confirmed st',
    run_check ctx_mention force interaction_channel env st =
    (Unchanged confirmed, st') ∧
    untouched st st' ∧
    arming ctx_mention interaction_channel (now_after env) confirmed st st'.
Proof.
  intros Hresp Htruthy Hdest Hsame.
  rewrite run_check_unfold.
  pose proof untouched_fetched as Hun.
  pose proof (fetch_games_frame (now_fetch env) (response env) st) as Hfr.
  simpl in Hfr. destruct Hfr as (Hg & _ & _ & Hp & _ & _).
  apply (fetch_games_data (now_fetch env) _ st) in Hresp. rewrite Hresp.
  rewrite Htruthy. simpl.
  destruct (destinations interaction_channel env) as [|c cs]; [done|].
  rewrite Hg, Hsame.
  set (st1 := (fetch_games _ _ st).2) in *.
  assert (∀ b, b = false ∨ interaction_channel = None →
               truthy ctx_mention = b ∨ interaction_channel = None →
          ∃ confirmed st',
            (Unchanged false, st1) = (Unchanged confirmed, st') ∧
            untouched st st' ∧
            arming ctx_mention interaction_channel (now_after env)
              confirmed st st') as Hplain.
  { intros b Hb Hb'. exists false, st1. split; [reflexivity|].
    split; [exact Hun|]. split; [|exact Hp].
    destruct Hb as [->|Hb]; destruct Hb' as [Hb'|Hb']; auto. }
  destruct ctx_mention as [mention|] eqn:Hm;
    [|apply (Hplain false); auto].
  destruct interaction_channel as [ic|] eqn:Hic;
    [|apply (Hplain true); auto].
  destruct (truthy (Some mention)) eqn:Ht;
    [|apply (Hplain false); auto].
  exists true, (armed mention ic (now_after env) st1).
  split; [reflexivity|]. split.
  - destruct Hun as (Hg' & Hu' & Hl' & Hf' & es & He & Hes).
    repeat split; try assumption.
    exists (es ++ [EvSend ic (MsgSameAsLastCheck mention)]). split.
    + simpl. rewrite He, <- app_assoc. reflexivity.
    + intros f Hin. apply elem_of_app in Hin as [Hin|Hin].
      * exact (Hes f Hin).
      * apply list_elem_of_singleton in Hin. discriminate.
  - exists mention. split; [reflexivity|].
    split; [by apply truthy_Some|]. split; [by eexists|].
    simpl. rewrite Hp. reflexivity.
Qed.
End Unchanged.

(** ** Title sets and the two filters *)

Lemma elem_of_titles (k : option string) (games : list Game) :
  k ∈ titles games ↔ ∃ g, (g ∈ games) ∧ title g = k.
Proof.
  unfold titles. rewrite elem_of_list_to_set, list_elem_of_fmap.
  split; intros (g & H1 & H2); exists g; auto.
Qed.

Lemma are_games_same_true (new_games old_games : list Game) :
  are_games_same new_games old_games = true ↔
  titles new_games = titles old_games.
Proof. unfold are_games_same. apply bool_decide_eq_true. Qed.

Lemma filter_all {A} (P : A → Prop) `{!∀ x, Decision (P x)} (l : list A) :
  (∀ x, x ∈ l → P x) → filter P l = l.
Proof.
  induction l as [|x l IH]; intros Hall; [reflexivity|].
  rewrite filter_cons_True by (apply Hall; left).
  f_equal. apply IH. intros y Hy. apply Hall. by right.
Qed.

Lemma filter_none {A} (P : A → Prop) `{!∀ x, Decision (P x)} (l : list A) :
  (∀ x, x ∈ l → ¬ P x) → filter P l = [].
Proof.
  induction l as [|x l IH]; intros Hnone; [reflexivity|].
  rewrite filter_cons_False by (apply Hnone; left).
  apply IH. intros y Hy. apply Hnone. by right.
Qed.

Lemma elem_of_kept_upcoming (g : Game) (cur upc : list Game) :
  g ∈ kept_upcoming cur upc ↔ (title g ∉ titles cur) ∧ (g ∈ upc).
Proof. unfold kept_upcoming. by rewrite list_elem_of_filter. Qed.

Lemma elem_of_new_upcoming (g : Game) (cur upc next : list Game) :
  g ∈ new_upcoming cur upc next ↔
  ((title g ∉ titles cur) ∧ (title g ∉ (title <$> kept_upcoming cur upc)))
  ∧ (g ∈ next).
Proof. unfold new_upcoming. by rewrite list_elem_of_filter. Qed.

(** The stored upcoming list of the changed path is already clean: filtering
    it again by the same current titles changes nothing. *)
Lemma kept_upcoming_stable (cur upc next : list Game) :
  kept_upcoming cur (kept_upcoming cur upc ++ new_upcoming cur upc next) =
  kept_upcoming cur upc ++ new_upcoming cur upc next.
Proof.
  apply filter_all. intros g Hg. apply elem_of_app in Hg as [Hg|Hg].
  - by apply elem_of_kept_upcoming in Hg as [? _].
  - by apply elem_of_new_upcoming in Hg as [[? _] _].
Qed.

Lemma titles_disjoint_kept (cur upc : list Game) :
  titles_disjoint cur (kept_upcoming cur upc).
Proof.
  intros g u Hg Hu Heq. apply elem_of_kept_upcoming in Hu as [Hnot _].
  apply Hnot, elem_of_titles. by exists g.
Qed.

(** C2: [save_posted] never writes a file in which a title is both current
    and upcoming; and when [run_check] takes its changed path, the stored
    upcoming list is the old one without the entries whose title is among the
    new current titles, followed by those games of the snapshot's upcoming
    list whose title is neither among the new current titles nor among the
    retained ones, so that no title is in both stored lists, in memory and in
    the file just written. *)
Theorem changed_keeps_current_and_upcoming_disjoint :
  (∀ st : State,
     ∃ f, POSTED_FILE (save_posted st) = Some f ∧
          file_current f = posted_games st ∧
          file_upcoming f = kept_upcoming (posted_games st) (posted_upcoming st) ∧
          titles_disjoint (file_current f) (file_upcoming f)) ∧
  (∀ ctx_mention force interaction_channel env st cur upc st',
     run_check ctx_mention force interaction_channel env st
       = (Changed cur upc, st') →
     ∃ p,
       response env = HttpStatus 200 (JsonObject p) ∧
       cur = current_of p ∧
       upc = new_upcoming cur (posted_upcoming st) (next_of p) ∧
       posted_games st' = cur ∧
       posted_upcoming st' = kept_upcoming cur (posted_upcoming st) ++ upc ∧
       titles_disjoint (posted_games st') (posted_upcoming st') ∧
       ∃ f, POSTED_FILE st' = Some f ∧
            file_current f = posted_games st' ∧
            file_upcoming f = posted_upcoming st' ∧
            titles_disjoint (file_current f) (file_upcoming f)).
Proof.
  split.
  - intros st. eexists. split; [reflexivity|]. simpl.
    repeat split. apply titles_disjoint_kept.
  - intros ctx_mention force interaction_channel env st cur upc st' Hrun.
    apply run_check_Changed_inv in Hrun
      as (p & Hresp & _ & _ & _ & Hcur & Hupc & Hg & Hu & _ & _ & Hf).
    exists p. rewrite <- Hupc in Hu.
    assert (titles_disjoint cur (kept_upcoming cur (posted_upcoming st) ++ upc))
      as Hdis.
    { rewrite Hupc, <- kept_upcoming_stable. apply titles_disjoint_kept. }
    rewrite Hg, Hu. repeat split; try assumption.
    eexists. split; [exact Hf|]. simpl.
    rewrite <- Hupc, Hupc, kept_upcoming_stable, <- Hupc.
    repeat split. exact Hdis.
Qed.

(** C3: once a snapshot S1 has been committed by the changed path, a call of
    [run_check] without [force] that fetches a snapshot S2 with the same set
    of current titles returns at the unchanged [return True]: the stored
    lists, the date marker and the state file are what they were and the
    state file is not written. *)
Theorem same_titles_leave_state_untouched
    (m1 m2 : option string) (force1 : bool) (ic1 ic2 : option Channel)
    (env1 env2 : Env) (S1 S2 : Payload) (upc1 : list Game) (st0 st1 : State) :
  response env1 = HttpStatus 200 (JsonObject S1) →
  run_check m1 force1 ic1 env1 st0 = (Changed (current_of S1) upc1, st1) →
  response env2 = HttpStatus 200 (JsonObject S2) →
  payload_truthy S2 = true →
  destinations ic2 env2 ≠ [] →
  titles (current_of S2) = titles (current_of S1) →
  ∃ confirmed,
    (run_check m2 false ic2 env2 st1).1 = Unchanged confirmed ∧
    untouched st1 (run_check m2 false ic2 env2 st1).2.
Proof.
  intros _ Hrun Hresp Htruthy Hdest Htitles.
  apply run_check_Changed_inv in Hrun
    as (p & _ & _ & _ & _ & _ & _ & Hg & _).
  destruct (run_check_unchanged_path m2 false ic2 env2 st1 S2)
    as (confirmed & st2 & Heq & Hun & _); try assumption.
  { rewrite andb_true_r. apply are_games_same_true. by rewrite Hg. }
  exists confirmed. rewrite Heq. split; [reflexivity|exact Hun].
Qed.

(** C4: two forced calls of [run_check] in a row that fetch the same payload
    both take the changed path and announce the same current games, and the
    second announces no upcoming game: each upcoming game of the payload has
    its title among the current titles or among the titles already stored as
    upcoming by the first call. *)
Theorem forced_twice_announces_no_upcoming
    (m1 m2 : option string) (ic1 ic2 : option Channel) (env1 env2 : Env)
    (p : Payload) (st : State) :
  response env1 = HttpStatus 200 (JsonObject p) →
  response env2 = HttpStatus 200 (JsonObject p) →
  payload_truthy p = true →
  destinations ic1 env1 ≠ [] →
  destinations ic2 env2 ≠ [] →
  let first := run_check m1 true ic1 env1 st in
  let second := run_check m2 true ic2 env2 first.2 in
  (∃ upc, first.1 = Changed (current_of p) upc) ∧
  second.1 = Changed (current_of p) [] ∧
  (∀ g, g ∈ next_of p →
        (title g ∈ titles (current_of p)) ∨
        (title g ∈ (title <$> posted_upcoming first.2))).
Proof.
  intros Hr1 Hr2 Htruthy Hd1 Hd2. simpl.
  destruct (run_check_changed_path m1 true ic1 env1 st p)
    as (st1 & Heq1 & Hc1); try assumption; [apply andb_false_r|].
  rewrite Heq1. simpl.
  destruct (run_check_changed_path m2 true ic2 env2 st1 p)
    as (st2 & Heq2 & Hc2); try assumption; [apply andb_false_r|].
  rewrite Heq2. simpl.
  destruct Hc1 as (_ & Hu1 & _). simpl in Hu1.
  assert (∀ g, g ∈ next_of p →
            (title g ∈ titles (current_of p)) ∨
            (title g ∈ (title <$> posted_upcoming st1))) as Hcovered.
  { intros g Hg.
    destruct (decide (title g ∈ titles (current_of p))) as [|Hcur]; [by left|].
    right. rewrite Hu1, fmap_app, elem_of_app.
    destruct (decide (title g ∈
                (title <$> kept_upcoming (current_of p) (posted_upcoming st))))
      as [|Hkept]; [by left|].
    right. apply list_elem_of_fmap. exists g. split; [reflexivity|].
    apply elem_of_new_upcoming. auto. }
  split; [by eexists|]. split; [|exact Hcovered].
  f_equal. apply filter_none. intros g Hg [Hcur Hkept].
  destruct (Hcovered g Hg) as [|Hin]; [done|].
  apply Hkept. rewrite Hu1, kept_upcoming_stable, <- Hu1. exact Hin.
Qed.

(** ** The Alpha/Beta example *)

(** C8: from the empty stored state, a manual check that fetches current
    [Alpha] and upcoming [Beta] takes the changed path, announces [Alpha] and
    [Beta], and stores current [Alpha], upcoming [Beta]; a scheduled check
    that then fetches current [Beta] and upcoming [Alpha] takes the changed
    path again and stores current [Beta], upcoming [Alpha]. *)
Theorem alpha_beta_example
    (mention : string) (channel : Channel) (envA envB : Env)
    (api : option ApiLog) (alpha beta alpha' beta' : Game) :
  title alpha = Some "Alpha" → title beta = Some "Beta" →
  title alpha' = Some "Alpha" → title beta' = Some "Beta" →
  response envA = HttpStatus 200 (JsonObject (snapshot [alpha] [beta])) →
  response envB = HttpStatus 200 (JsonObject (snapshot [beta'] [alpha'])) →
  get_free_game_channels (guilds envB) ≠ [] →
  let first :=
    run_check (Some mention) false (Some channel) envA (load_posted None api) in
  let second := run_check None false None envB first.2 in
  first.1 = Changed [alpha] [beta] ∧
  posted_games first.2 = [alpha] ∧ posted_upcoming first.2 = [beta] ∧
  second.1 = Changed [beta'] [alpha'] ∧
  posted_games second.2 = [beta'] ∧ posted_upcoming second.2 = [alpha'] ∧
  POSTED_FILE second.2 =
    Some {| file_current := [beta']; file_upcoming := [alpha'];
            file_last_daily_run := Some (date (now_after envB)) |}.
Proof.
  intros Ha Hb Ha' Hb' HrA HrB HchB. simpl.
  destruct alpha as [ta da ua], beta as [tb db ub],
           alpha' as [ta' da' ua'], beta' as [tb' db' ub'].
  simpl in Ha, Hb, Ha', Hb'. subst ta tb ta' tb'.
  destruct (run_check_changed_path (Some mention) false (Some channel) envA
              (load_posted None api) _ HrA)
    as (st1 & Heq1 & Hg1 & Hu1 & _); [reflexivity|discriminate|reflexivity|].
  rewrite Heq1. simpl in Hg1, Hu1 |- *.
  destruct (run_check_changed_path None false None envB st1 _ HrB)
    as (st2 & Heq2 & Hg2 & Hu2 & _ & _ & Hf2);
    [reflexivity|exact HchB|by rewrite Hg1|].
  rewrite Heq2. simpl in Hg2, Hu2, Hf2 |- *.
  rewrite Hu1 in Hu2, Hf2 |- *.
  repeat split; try assumption.
Qed.

(** ** Confirmations *)

Section UnchangedInv.
Variables (ctx_mention : option string) (force : bool)
          (interaction_channel : option Channel) (env : Env) (st : State).

Lemma run_check_Unchanged_inv (confirmed : bool) (st' : State) :
  run_check ctx_mention force interaction_channel env st
    = (Unchanged confirmed, st') →
  force = false ∧
  (∃ p, response env = HttpStatus 200 (JsonObject p) ∧
        titles (current_of p) = titles (posted_games st)) ∧
  untouched st st' ∧
  arming ctx_mention interaction_channel (now_after env) confirmed st st'.
Proof.
  intros Hrun.
  destruct (fetch_games (now_fetch env) (response env) st).1
    as [p|] eqn:Hdata;
    [|rewrite run_check_no_data in Hrun by exact Hdata; discriminate].
  pose proof Hdata as Hresp. apply fetch_games_data in Hresp.
  destruct (payload_truthy p) eqn:Htruthy;
    [|rewrite run_check_unfold, Hdata, Htruthy in Hrun; discriminate].
  destruct (decide (destinations interaction_channel env = [])) as [Hd|Hd];
    [rewrite run_check_no_channel in Hrun by exact Hd; discriminate|].
  destruct (are_games_same (current_of p) (posted_games st) && negb force)
    eqn:Hsame.
  - destruct (run_check_unchanged_path ctx_mention force interaction_channel
                env st p Hresp Htruthy Hd Hsame)
      as (confirmed' & st'' & Heq & Hun & Harm).
    rewrite Heq in Hrun. injection Hrun as <- <-.
    apply andb_true_iff in Hsame as [Hsame Hforce].
    split; [by destruct force|].
    split; [|by split].
    exists p. split; [exact Hresp|]. by apply are_games_same_true.
  - destruct (run_check_changed_path ctx_mention force interaction_channel
                env st p Hresp Htruthy Hd Hsame) as (st'' & Heq & _).
    rewrite Heq in Hrun. discriminate.
Qed.
End UnchangedInv.

Lemma redisplayed_embeds (embeds : list Embed) :
  redisplayed (MsgCurrentHeader :: (MsgEmbed <$> embeds)) = true.
Proof. apply bool_decide_eq_true. discriminate. Qed.

(** C6, as the code has it: [/confirm] re-displays exactly when a
    confirmation is stored for the caller and the clock is not past its
    expiry, and then removes that entry; in every other case it re-displays
    nothing and changes nothing, so an expired entry stays stored.  A check
    that stores a confirmation overwrites the caller's entry and touches no
    other, so each caller has at most one. *)
Theorem confirm_slash_consumes_only_live_token :
  (∀ (mention : string) (now : datetime) (st : State),
     let reply := (confirm_slash mention now st).1 in
     let st' := (confirm_slash mention now st).2 in
     (redisplayed reply = true ↔
      ∃ expiry, pending_confirmations st !! mention = Some expiry
                ∧ dt_leb now expiry = true) ∧
     (redisplayed reply = true →
      st' = set_pending_confirmations
              (delete mention (pending_confirmations st)) st) ∧
     (redisplayed reply = false → st' = st)) ∧
  (∀ ctx_mention force interaction_channel env st st',
     run_check ctx_mention force interaction_channel env st
       = (Unchanged true, st') →
     ∃ mention,
       ctx_mention = Some mention ∧
       pending_confirmations st' !! mention
         = Some (add_one_minute (now_after env)) ∧
       ∀ other, other ≠ mention →
         pending_confirmations st' !! other = pending_confirmations st !! other).
Proof.
  split.
  - intros mention now st. simpl. unfold confirm_slash.
    destruct (pending_confirmations st !! mention) as [expiry|] eqn:Hlook.
    + destruct (dt_leb now expiry) eqn:Hle.
      * assert (redisplayed
                  (match make_embeds (posted_games st) (Some mention) false with
                   | [] => ([MsgNoCurrentGames],
                            set_pending_confirmations
                              (delete mention (pending_confirmations st)) st)
                   | _ :: _ =>
                       (MsgCurrentHeader ::
                          (MsgEmbed <$>
                             make_embeds (posted_games st) (Some mention) false),
                        set_pending_confirmations
                          (delete mention (pending_confirmations st)) st)
                   end).1 = true) as Hred.
        { destruct (make_embeds _ _ _); [reflexivity|].
          apply redisplayed_embeds. }
        simpl in *. rewrite Hred.
        split; [split; [by eauto|done]|].
        split; [|done]. intros _. by destruct (make_embeds _ _ _).
      * simpl. split; [|by split].
        split; [done|]. intros (e & [= <-] & He). congruence.
    + simpl. split; [|by split].
      split; [done|]. intros (e & He & _). discriminate.
  - intros ctx_mention force interaction_channel env st st' Hrun.
    apply run_check_Unchanged_inv in Hrun as (_ & _ & _ & Harm).
    destruct Harm as (mention & Hm & _ & _ & Hpc).
    exists mention. split; [exact Hm|]. rewrite Hpc. split.
    + apply lookup_insert_eq.
    + intros other Hne. by apply lookup_insert_ne.
Qed.

(** ** Items without a title *)

(** C7, as the code has it: the key of an item is [g.get("title")], and a
    missing title is the one key [None], shared by all items without a title.
    [are_games_same] holds exactly when the two lists have the same keys, so
    two items without a title match each other; on the changed path every
    fetched current game is stored, an old upcoming entry is kept exactly
    when its key is not a key of the new current games, and a fetched
    upcoming game is appended exactly when its key is neither a key of the
    new current games nor of a kept entry. *)
Theorem title_is_the_key_and_missing_titles_coincide :
  (∀ new_games old_games : list Game,
     are_games_same new_games old_games = true ↔
     ∀ k : option string,
       k ∈ (title <$> new_games) ↔ k ∈ (title <$> old_games)) ∧
  (∀ g1 g2 : Game,
     title g1 = None → title g2 = None → are_games_same [g1] [g2] = true) ∧
  (∀ ctx_mention force interaction_channel env st cur upc st',
     run_check ctx_mention force interaction_channel env st
       = (Changed cur upc, st') →
     posted_games st' = cur ∧
     ∃ p kept,
       response env = HttpStatus 200 (JsonObject p) ∧
       cur = current_of p ∧
       posted_upcoming st' = kept ++ upc ∧
       (∀ g, g ∈ kept ↔
             (g ∈ posted_upcoming st) ∧ (title g ∉ (title <$> cur))) ∧
       (∀ g, g ∈ upc ↔
             (g ∈ next_of p) ∧ (title g ∉ (title <$> cur))
             ∧ (title g ∉ (title <$> kept)))).
Proof.
  split; [|split].
  - intros new_games old_games. rewrite are_games_same_true.
    unfold titles. rewrite set_eq.
    by setoid_rewrite elem_of_list_to_set.
  - intros g1 g2 H1 H2. apply are_games_same_true.
    unfold titles. simpl. by rewrite H1, H2.
  - intros ctx_mention force interaction_channel env st cur upc st' Hrun.
    apply run_check_Changed_inv in Hrun
      as (p & Hresp & _ & _ & _ & Hcur & Hupc & Hg & Hu & _).
    split; [exact Hg|].
    exists p, (kept_upcoming cur (posted_upcoming st)).
    split; [exact Hresp|]. split; [exact Hcur|].
    split; [by rewrite Hu, <- Hupc|].
    assert (∀ k, k ∉ titles cur ↔ k ∉ (title <$> cur)) as Hkeys.
    { intros k. unfold titles. by rewrite elem_of_list_to_set. }
    split.
    + intros g. rewrite elem_of_kept_upcoming, Hkeys. tauto.
    + intros g. rewrite Hupc at 1. rewrite elem_of_new_upcoming, Hkeys. tauto.
Qed.

(** ** The daily gate *)

Lemma daily_check_Some_inv (t : Tick) (st st' : State) (r : ReconcileResult) :
  daily_check t st = (Some r, st') →
  due t = true ∧
  last_daily_run st ≠ Some (date (tick_now t)) ∧
  run_check None false None (tick_env t) st = (r, st').
Proof.
  unfold daily_check, due.
  destruct (dt_geb _ _); simpl; [|discriminate].
  case_bool_decide; simpl; [|discriminate].
  destruct (run_check _ _ _ _ _) as [r' st'']. intros [= <- <-]. auto.
Qed.

(** After a changed result the marker is the date read after the fetch, and a
    tick of that date does not call [run_check]. *)
Lemma changed_daily_check_marks_the_day
    (t t2 : Tick) (st st' : State) (cur upc : list Game) :
  daily_check t st = (Some (Changed cur upc), st') →
  last_daily_run st' = Some (date (now_after (tick_env t))) ∧
  (date (tick_now t2) = date (now_after (tick_env t)) →
   daily_check t2 st' = (None, st')).
Proof.
  intros Hdc. apply daily_check_Some_inv in Hdc as (_ & _ & Hrun).
  apply run_check_Changed_inv in Hrun
    as (p & _ & _ & _ & _ & _ & _ & _ & _ & Hl & _).
  split; [exact Hl|]. intros Hd. apply daily_check_skips. by rewrite Hl, Hd.
Qed.

(** After a failed result the marker is as before, and the next due tick of
    the day calls [run_check] again. *)
Lemma failed_daily_check_is_retried (t t2 : Tick) (st st' : State) :
  daily_check t st = (Some Failed, st') →
  date (tick_now t2) = date (tick_now t) → due t2 = true →
  last_daily_run st' = last_daily_run st ∧
  is_Some (daily_check t2 st').1.
Proof.
  intros Hdc Hd Hdue. apply daily_check_Some_inv in Hdc as (_ & Hnot & Hrun).
  apply run_check_Failed_frame in Hrun as (_ & _ & Hl & _).
  split; [exact Hl|].
  rewrite daily_check_runs; [by eexists|exact Hdue|by rewrite Hl, Hd].
Qed.

(** C1, where the code departs from it: a scheduled check that returns at
    the unchanged [return True] does not set the date marker, so the marker
    is still not today and the next due tick of the same day calls
    [run_check] again. *)
Theorem unchanged_daily_check_runs_again
    (t t2 : Tick) (st st' : State) (confirmed : bool) :
  daily_check t st = (Some (Unchanged confirmed), st') →
  date (tick_now t2) = date (tick_now t) → due t2 = true →
  returned (Unchanged confirmed) = true ∧
  last_daily_run st' = last_daily_run st ∧
  last_daily_run st' ≠ Some (date (tick_now t)) ∧
  daily_check t2 st' =
    (Some (run_check None false None (tick_env t2) st').1,
     (run_check None false None (tick_env t2) st').2).
Proof.
  intros Hdc Hd Hdue. apply daily_check_Some_inv in Hdc as (_ & Hnot & Hrun).
  apply run_check_Unchanged_inv in Hrun as (_ & _ & (_ & _ & Hl & _) & _).
  split; [reflexivity|]. split; [exact Hl|].
  split; [by rewrite Hl|].
  apply daily_check_runs; [exact Hdue|by rewrite Hl, Hd].
Qed.

(** ** The statements at concrete inputs *)

(** 14 March, Alpha still listed: the check of 17:01 returns unchanged, the
    marker stays at 13 March, and the tick of 17:16 checks again. *)
Lemma unchanged_daily_check_runs_again_witness :
  let t := tick_at (march 14 17 1 0) (ok [titled "Alpha"] []) [a_guild] in
  let t2 := tick_at (march 14 17 16 0) (ok [titled "Alpha"] []) [a_guild] in
  let st' := (daily_check t after_13_march).2 in
  (daily_check t after_13_march).1 = Some (Unchanged false) ∧
  last_daily_run st' = Some (2025, 3, 13) ∧
  (daily_check t2 st').1 = Some (Unchanged false).
Proof.
  intros t t2 st'.
  destruct (unchanged_daily_check_runs_again t t2 after_13_march st' false)
    as (_ & Hl & _ & Hrun);
    [vm_compute; reflexivity | reflexivity | reflexivity |].
  split; [vm_compute; reflexivity|].
  split; [rewrite Hl; vm_compute; reflexivity|].
  rewrite Hrun. vm_compute. reflexivity.
Defined.

(** The three ticks of 14 March each call [run_check]: with the check of the
    day before that is four requests, and the marker is still 13 March. *)
Example three_unchanged_checks_on_one_day :
  (daily_loop ticks_14_march after_13_march).1
    = [Some (Unchanged false); Some (Unchanged false); Some (Unchanged false)] ∧
  last_daily_run (daily_loop ticks_14_march after_13_march).2
    = Some (2025, 3, 13) ∧
  http_gets (events (daily_loop ticks_14_march after_13_march).2) = 4%nat.
Proof. vm_compute. repeat split. Qed.

Lemma changed_keeps_current_and_upcoming_disjoint_witness :
  let env := env_at (march 14 17 1 0)
               (ok [titled "Beta"] [titled "Alpha"; titled "Beta"]) [a_guild] in
  let st' := (run_check None false None env after_13_march).2 in
  posted_games st' = [titled "Beta"] ∧
  posted_upcoming st' = [titled "Alpha"] ∧
  titles_disjoint (posted_games st') (posted_upcoming st').
Proof.
  intros env st'.
  destruct (proj2 changed_keeps_current_and_upcoming_disjoint
              None false None env after_13_march
              [titled "Beta"] [titled "Alpha"] st')
    as (p & _ & _ & _ & Hg & Hu & Hdis & _); [vm_compute; reflexivity|].
  split; [exact Hg|]. split; [rewrite Hu; vm_compute; reflexivity|exact Hdis].
Defined.

Lemma same_titles_leave_state_untouched_witness :
  let env1 := env_at (march 13 17 1 0) (ok [titled "Alpha"] []) [a_guild] in
  let env2 := env_at (march 14 17 1 0)
                (ok [titled "Alpha"; titled "Alpha"] [titled "Beta"])
                [a_guild] in
  ∃ confirmed,
    (run_check None false None env2 after_13_march).1 = Unchanged confirmed ∧
    untouched after_13_march (run_check None false None env2 after_13_march).2.
Proof.
  intros env1 env2.
  apply (same_titles_leave_state_untouched None None false None None env1 env2
           (snapshot [titled "Alpha"] [])
           (snapshot [titled "Alpha"; titled "Alpha"] [titled "Beta"])
           [] (load_posted None None) after_13_march).
  - reflexivity.
  - vm_compute. reflexivity.
  - reflexivity.
  - reflexivity.
  - vm_compute. discriminate.
  - apply are_games_same_true. vm_compute. reflexivity.
Defined.

Lemma forced_twice_announces_no_upcoming_witness :
  let env := env_at (march 14 18 0 0) (ok [titled "Alpha"] [titled "Beta"])
               [a_guild] in
  let first := run_check (Some owner) true (Some general) env after_13_march in
  let second := run_check (Some owner) true (Some general) env first.2 in
  first.1 = Changed [titled "Alpha"] [titled "Beta"] ∧
  second.1 = Changed [titled "Alpha"] [].
Proof.
  intros env first second.
  destruct (forced_twice_announces_no_upcoming (Some owner) (Some owner)
              (Some general) (Some general) env env
              (snapshot [titled "Alpha"] [titled "Beta"]) after_13_march)
    as (_ & Hsecond & _);
    [reflexivity | reflexivity | reflexivity | discriminate | discriminate |].
  split; [vm_compute; reflexivity|exact Hsecond].
Defined.

Lemma run_check_fetch_error_mutates_nothing_witness :
  let env := env_at (march 14 17 1 0) (HttpStatus 503 MalformedBody) [a_guild] in
  FetchError (response env) ∧
  (run_check None false None env after_13_march).1 = Failed ∧
  last_daily_run (run_check None false None env after_13_march).2
    = Some (2025, 3, 13).
Proof.
  intros env.
  assert (FetchError (response env)) as Herr by (left; discriminate).
  split; [exact Herr|].
  destruct (run_check_fetch_error_mutates_nothing None false None env
              after_13_march Herr) as (_ & Hfailed & _ & _ & Hl & _).
  split; [exact Hfailed|]. rewrite Hl. vm_compute. reflexivity.
Defined.

(** The owner's [/check] of 18:00:00 stored the expiry 18:01:00; [/confirm]
    at 18:00:30 re-displays and removes the entry, and a second [/confirm] at
    18:00:31 finds none. *)
Lemma confirm_slash_consumes_only_live_token_witness :
  let first := confirm_slash owner (march 14 18 0 30) after_manual_check in
  let second := confirm_slash owner (march 14 18 0 31) first.2 in
  pending_confirmations after_manual_check !! owner = Some (march 14 18 1 0) ∧
  redisplayed first.1 = true ∧
  pending_confirmations first.2 !! owner = None ∧
  redisplayed second.1 = false.
Proof.
  intros first second.
  destruct (proj1 confirm_slash_consumes_only_live_token
              owner (march 14 18 0 30) after_manual_check)
    as (Hiff & Hdel & _).
  assert (redisplayed first.1 = true) as Hred.
  { apply Hiff. exists (march 14 18 1 0). split; vm_compute; reflexivity. }
  split; [vm_compute; reflexivity|]. split; [exact Hred|].
  split; [|vm_compute; reflexivity].
  unfold first. rewrite (Hdel Hred). simpl. apply lookup_delete_eq.
Defined.

(** [/confirm] at 18:01:01, one second past the expiry, re-displays nothing
    and the expired entry is still stored afterwards. *)
Lemma confirm_slash_keeps_expired_token :
  let late := confirm_slash owner (march 14 18 1 1) after_manual_check in
  pending_confirmations after_manual_check !! owner = Some (march 14 18 1 0) ∧
  dt_leb (march 14 18 1 1) (march 14 18 1 0) = false ∧
  redisplayed late.1 = false ∧
  pending_confirmations late.2 !! owner = Some (march 14 18 1 0).
Proof. vm_compute. repeat split. Qed.

(** Across the change to summer time the comparison is one of instants: an
    expiry of 02:00:30 winter time is not yet passed at 03:00:10 summer
    time, ten seconds after the clock jumped from 02:00 to 03:00. *)
Example confirm_slash_across_the_clock_change :
  let st := set_pending_confirmations {[ owner := march 30 2 0 30 ]}
              after_13_march in
  redisplayed (confirm_slash owner (march_summer 30 3 0 10) st).1 = true ∧
  redisplayed (confirm_slash owner (march_summer 30 3 0 31) st).1 = false.
Proof. vm_compute. split; reflexivity. Qed.

(** Two different items without a title: one stored as current makes the
    other count as unchanged; one stored as upcoming makes the other, fetched
    as upcoming, neither announced nor stored. *)
Lemma untitled_items_are_treated_as_one :
  untitled "A" ≠ untitled "B" ∧
  are_games_same [untitled "B"] [untitled "A"] = true ∧
  (run_check None false None
     (env_at (march 14 17 1 0) (ok [untitled "B"] []) [a_guild])
     with_untitled_current).1 = Unchanged false ∧
  posted_upcoming with_untitled_upcoming = [untitled "A"] ∧
  (let changed :=
     run_check None false None
       (env_at (march 14 17 1 0) (ok [titled "Alpha"] [untitled "B"]) [a_guild])
       with_untitled_upcoming in
   changed.1 = Changed [titled "Alpha"] [] ∧
   posted_upcoming changed.2 = [untitled "A"]).
Proof. split; [discriminate|]. vm_compute. repeat split. Qed.

Lemma title_is_the_key_and_missing_titles_coincide_witness :
  are_games_same [untitled "B"] [untitled "A"] = true ∧
  posted_games
    (run_check None false None
       (env_at (march 14 17 1 0) (ok [titled "Alpha"] [untitled "B"]) [a_guild])
       with_untitled_upcoming).2 = [titled "Alpha"].
Proof.
  destruct title_is_the_key_and_missing_titles_coincide as (_ & Hnone & Hrun).
  split; [apply Hnone; reflexivity|].
  apply (Hrun None false None
           (env_at (march 14 17 1 0) (ok [titled "Alpha"] [untitled "B"])
              [a_guild])
           with_untitled_upcoming [titled "Alpha"] []).
  vm_compute. reflexivity.
Defined.

Lemma alpha_beta_example_witness :
  let envA := env_at (march 13 12 0 0) (ok [titled "Alpha"] [titled "Beta"])
                [a_guild] in
  let envB := env_at (march 14 17 1 0) (ok [titled "Beta"] [titled "Alpha"])
                [a_guild] in
  let first :=
    run_check (Some owner) false (Some general) envA (load_posted None None) in
  let second := run_check None false None envB first.2 in
  first.1 = Changed [titled "Alpha"] [titled "Beta"] ∧
  posted_games second.2 = [titled "Beta"] ∧
  posted_upcoming second.2 = [titled "Alpha"].
Proof.
  intros envA envB first second.
  destruct (alpha_beta_example owner general envA envB None
              (titled "Alpha") (titled "Beta") (titled "Alpha") (titled "Beta"))
    as (H1 & _ & _ & _ & H2 & H3 & _);
    [reflexivity | reflexivity | reflexivity | reflexivity
     | reflexivity | reflexivity | vm_compute; discriminate |].
  split; [exact H1|]. split; [exact H2|exact H3].
Defined.

(** 14 March in a guild without a free-games channel, the catalog answering
    with a new game: each of the three ticks sends a request and fails. *)
Lemma no_channel_retries_every_tick_witness :
  let ticks :=
    [tick_at (march 14 17 1 0) (ok [titled "Beta"] []) [a_guild_without_channel];
     tick_at (march 14 17 16 0) (ok [titled "Beta"] []) [a_guild_without_channel];
     tick_at (march 14 17 31 0) (ok [titled "Beta"] []) [a_guild_without_channel]]
  in
  (daily_loop ticks after_13_march).1
    = [Some Failed; Some Failed; Some Failed] ∧
  http_gets (events (daily_loop ticks after_13_march).2) = 4%nat.
Proof.
  intros ticks.
  destruct (no_channel_retries_every_tick (2025, 3, 14) ticks after_13_march)
    as (Hrs & _ & _ & _ & _ & Hgets).
  - repeat constructor.
  - vm_compute. discriminate.
  - split; [exact Hrs|]. rewrite Hgets. vm_compute. reflexivity.
Defined.

(** ** Calendar arithmetic *)

Lemma is_leap_spec (y : Z) :
  is_leap y = true ↔ (y mod 4 = 0 ∧ y mod 100 ≠ 0) ∨ y mod 400 = 0.
Proof.
  unfold is_leap.
  rewrite orb_true_iff, andb_true_iff, negb_true_iff.
  rewrite !Z.eqb_eq, Z.eqb_neq. tauto.
Qed.

Lemma days_before_year_succ (y : Z) :
  days_before_year (y + 1) =
  days_before_year y + 365 + (if is_leap y then 1 else 0).
Proof.
  unfold days_before_year.
  replace (y + 1 - 1) with y by lia.
  destruct (is_leap y) eqn:Hleap.
  - apply is_leap_spec in Hleap.
    Z.div_mod_to_equations. lia.
  - assert (¬ ((y mod 4 = 0 ∧ y mod 100 ≠ 0) ∨ y mod 400 = 0)) as Hn.
    { rewrite <- is_leap_spec. congruence. }
    Z.div_mod_to_equations. lia.
Qed.

Lemma days_before_year_mono (y1 y2 : Z) :
  y1 ≤ y2 → days_before_year y1 ≤ days_before_year y2.
Proof.
  intros Hle. unfold days_before_year. Z.div_mod_to_equations. lia.
Qed.

Lemma month_cases (m : Z) :
  1 ≤ m ≤ 12 →
  m = 1 ∨ m = 2 ∨ m = 3 ∨ m = 4 ∨ m = 5 ∨ m = 6 ∨
  m = 7 ∨ m = 8 ∨ m = 9 ∨ m = 10 ∨ m = 11 ∨ m = 12.
Proof. lia. Qed.

Lemma days_before_month_succ (y m : Z) :
  1 ≤ m < 12 →
  days_before_month y (m + 1) = days_before_month y m + days_in_month y m.
Proof.
  intros Hm.
  destruct (month_cases m) as [->|[->|[->|[->|[->|[->|[->|[->|[->|[->|[->| ->]]]]]]]]]]];
    try lia; unfold days_before_month, days_in_month; simpl;
    destruct (is_leap y); reflexivity.
Qed.

Lemma days_before_month_december (y : Z) :
  days_before_month y 12 + days_in_month y 12 =
  365 + (if is_leap y then 1 else 0).
Proof.
  unfold days_before_month, days_in_month; simpl. destruct (is_leap y); lia.
Qed.

Lemma days_in_month_pos (y m : Z) : 28 ≤ days_in_month y m ≤ 31.
Proof.
  unfold days_in_month.
  repeat (match goal with |- context [if ?b then _ else _] => destruct b end);
    lia.
Qed.

Lemma days_before_month_mono (y m1 m2 : Z) :
  1 ≤ m1 → m1 < m2 → m2 ≤ 12 →
  days_before_month y m1 + days_in_month y m1 ≤ days_before_month y m2.
Proof.
  intros H1 Hlt H2.
  assert (∃ k : nat, m2 = m1 + 1 + Z.of_nat k) as [k ->].
  { exists (Z.to_nat (m2 - m1 - 1)). lia. }
  clear Hlt. induction k as [|k IH].
  - rewrite Z.add_0_r, days_before_month_succ by lia. lia.
  - replace (m1 + 1 + Z.of_nat (S k)) with ((m1 + 1 + Z.of_nat k) + 1) by lia.
    rewrite days_before_month_succ by lia.
    pose proof (days_in_month_pos y (m1 + 1 + Z.of_nat k)).
    specialize (IH ltac:(lia)). lia.
Qed.

Lemma days_before_month_bounds (y m : Z) :
  1 ≤ m ≤ 12 →
  0 ≤ days_before_month y m ∧
  days_before_month y m + days_in_month y m
    ≤ 365 + (if is_leap y then 1 else 0).
Proof.
  intros Hm. split.
  - unfold days_before_month.
    destruct (month_cases m Hm)
      as [->|[->|[->|[->|[->|[->|[->|[->|[->|[->|[->| ->]]]]]]]]]]];
      simpl; destruct (is_leap y); lia.
  - destruct (decide (m = 12)) as [->|Hne].
    + rewrite days_before_month_december. lia.
    + pose proof (days_before_month_mono y m 12 ltac:(lia) ltac:(lia) ltac:(lia)).
      pose proof (days_before_month_december y).
      pose proof (days_in_month_pos y 12). lia.
Qed.

Lemma toordinal_year_lt (a b : datetime) :
  valid_datetime a → valid_datetime b →
  year a < year b → toordinal a < toordinal b.
Proof.
  intros (Hya & Hma & Hda & _) (Hyb & Hmb & Hdb & _) Hlt. unfold toordinal.
  pose proof (days_before_month_bounds (year a) (month a) Hma) as [_ Hua].
  pose proof (days_before_month_bounds (year b) (month b) Hmb) as [Hlb _].
  pose proof (days_before_year_succ (year a)).
  pose proof (days_before_year_mono (year a + 1) (year b) ltac:(lia)). lia.
Qed.

Lemma toordinal_month_lt (a b : datetime) :
  valid_datetime a → valid_datetime b →
  year a = year b → month a < month b → toordinal a < toordinal b.
Proof.
  intros (Hya & Hma & Hda & _) (Hyb & Hmb & Hdb & _) Hy Hlt. unfold toordinal.
  rewrite Hy in *.
  pose proof (days_before_month_mono (year b) (month a) (month b)
                ltac:(lia) Hlt ltac:(lia)). lia.
Qed.

Lemma toordinal_compare (a b : datetime) :
  valid_datetime a → valid_datetime b →
  lex (year a ?= year b) (lex (month a ?= month b) (day a ?= day b))
  = (toordinal a ?= toordinal b).
Proof.
  intros Ha Hb. symmetry.
  destruct (Z.compare_spec (year a) (year b)) as [Hy|Hy|Hy]; simpl.
  - destruct (Z.compare_spec (month a) (month b)) as [Hm|Hm|Hm]; simpl.
    + unfold toordinal. rewrite Hy, Hm.
      destruct (Z.compare_spec (day a) (day b)).
      * apply Z.compare_eq_iff. lia.
      * apply Z.compare_lt_iff. lia.
      * apply Z.compare_gt_iff. lia.
    + apply Z.compare_lt_iff. by apply toordinal_month_lt.
    + apply Z.compare_gt_iff. by apply toordinal_month_lt.
  - apply Z.compare_lt_iff. by apply toordinal_year_lt.
  - apply Z.compare_gt_iff. by apply toordinal_year_lt.
Qed.

(** Microseconds since midnight. *)
Lemma total_microseconds_split (t : datetime) :
  total_microseconds t =
  toordinal t * 86400000000
  + (((hour t * 60 + minute t) * 60 + second t) * 1000000 + microsecond t).
Proof. unfold total_microseconds. lia. Qed.

Lemma time_of_day_compare (a b : datetime) :
  valid_datetime a → valid_datetime b →
  lex (hour a ?= hour b) (lex (minute a ?= minute b)
    (lex (second a ?= second b) (microsecond a ?= microsecond b)))
  = (((hour a * 60 + minute a) * 60 + second a) * 1000000 + microsecond a
     ?= ((hour b * 60 + minute b) * 60 + second b) * 1000000 + microsecond b).
Proof.
  intros (_ & _ & _ & Hha & Hmia & Hsa & Hua) (_ & _ & _ & Hhb & Hmib & Hsb & Hub).
  symmetry.
  destruct (Z.compare_spec (hour a) (hour b)); simpl;
    [|apply Z.compare_lt_iff; lia|apply Z.compare_gt_iff; lia].
  destruct (Z.compare_spec (minute a) (minute b)); simpl;
    [|apply Z.compare_lt_iff; lia|apply Z.compare_gt_iff; lia].
  destruct (Z.compare_spec (second a) (second b)); simpl;
    [|apply Z.compare_lt_iff; lia|apply Z.compare_gt_iff; lia].
  destruct (Z.compare_spec (microsecond a) (microsecond b));
    [apply Z.compare_eq_iff|apply Z.compare_lt_iff|apply Z.compare_gt_iff]; lia.
Qed.

Lemma lex_assoc (c1 c2 c3 : comparison) :
  lex c1 (lex c2 c3) = lex (lex c1 c2) c3.
Proof. by destruct c1. Qed.

(** Comparing the fields of two valid datetimes in order is comparing their
    positions on the wall-clock microsecond scale. *)
Lemma fields_compare_total_microseconds (a b : datetime) :
  valid_datetime a → valid_datetime b →
  fields_compare a b = (total_microseconds a ?= total_microseconds b).
Proof.
  intros Ha Hb. unfold fields_compare.
  rewrite (lex_assoc (month a ?= month b) (day a ?= day b)).
  rewrite (lex_assoc (year a ?= year b)
             (lex (month a ?= month b) (day a ?= day b))).
  rewrite toordinal_compare, time_of_day_compare by assumption.
  rewrite !total_microseconds_split.
  destruct Ha as (_ & _ & _ & Hha & Hmia & Hsa & Hua),
           Hb as (_ & _ & _ & Hhb & Hmib & Hsb & Hub).
  symmetry.
  destruct (Z.compare_spec (toordinal a) (toordinal b)); simpl;
    [|apply Z.compare_lt_iff; lia|apply Z.compare_gt_iff; lia].
  destruct (Z.compare_spec
              (((hour a * 60 + minute a) * 60 + second a) * 1000000
               + microsecond a)
              (((hour b * 60 + minute b) * 60 + second b) * 1000000
               + microsecond b));
    [apply Z.compare_eq_iff|apply Z.compare_lt_iff|apply Z.compare_gt_iff]; lia.
Qed.

(** Whatever their offsets, two valid datetimes compare as their instants
    do. *)
Lemma dt_compare_instant (a b : datetime) :
  valid_datetime a → valid_datetime b →
  dt_compare a b = (instant a ?= instant b).
Proof.
  intros Ha Hb. unfold dt_compare. case_decide as Hoff; [|reflexivity].
  rewrite fields_compare_total_microseconds by assumption.
  unfold instant. rewrite Hoff. symmetry.
  destruct (Z.compare_spec (total_microseconds a) (total_microseconds b));
    [apply Z.compare_eq_iff|apply Z.compare_lt_iff|apply Z.compare_gt_iff]; lia.
Qed.

Lemma dt_leb_instant (a b : datetime) :
  valid_datetime a → valid_datetime b →
  dt_leb a b = true ↔ instant a ≤ instant b.
Proof.
  intros Ha Hb. unfold dt_leb.
  rewrite dt_compare_instant by assumption.
  destruct (Z.compare_spec (instant a) (instant b));
    split; intros; first [reflexivity | lia | discriminate].
Qed.

Lemma dt_geb_instant (a b : datetime) :
  valid_datetime a → valid_datetime b →
  dt_geb a b = true ↔ instant b ≤ instant a.
Proof.
  intros Ha Hb. unfold dt_geb.
  rewrite dt_compare_instant by assumption.
  destruct (Z.compare_spec (instant a) (instant b));
    split; intros; first [reflexivity | lia | discriminate].
Qed.

(** Between datetimes of one offset the wall clock can be compared. *)
Lemma dt_geb_total_microseconds (a b : datetime) :
  valid_datetime a → valid_datetime b → utcoffset a = utcoffset b →
  dt_geb a b = true ↔ total_microseconds b ≤ total_microseconds a.
Proof.
  intros Ha Hb Hoff. rewrite dt_geb_instant by assumption.
  unfold instant. rewrite Hoff. lia.
Qed.

Lemma add_one_day_valid (t : datetime) :
  valid_datetime t →
  valid_datetime (add_one_day t) ∧
  toordinal (add_one_day t) = toordinal t + 1.
Proof.
  intros (Hy & Hm & Hd & Hh & Hmi & Hs & Hu). unfold add_one_day.
  destruct (Z.ltb_spec (day t) (days_in_month (year t) (month t))) as [Hlt|Hge].
  - split; [unfold valid_datetime; simpl; lia|]. unfold toordinal; simpl. lia.
  - destruct (Z.ltb_spec (month t) 12) as [Hmlt|Hmge].
    + pose proof (days_in_month_pos (year t) (month t + 1)).
      split; [unfold valid_datetime; simpl; lia|].
      unfold toordinal; simpl.
      rewrite days_before_month_succ by lia. lia.
    + assert (month t = 12) as Hm12 by lia.
      pose proof (days_in_month_pos (year t + 1) 1).
      split; [unfold valid_datetime; simpl; lia|].
      unfold toordinal; simpl.
      rewrite days_before_year_succ.
      pose proof (days_before_month_december (year t)) as Hdec.
      rewrite Hm12 in *. unfold days_before_month at 1. simpl. lia.
Qed.

Lemma total_microseconds_add_one_day (t : datetime) :
  valid_datetime t →
  total_microseconds (add_one_day t) = total_microseconds t + 86400000000.
Proof.
  intros Hv. destruct (add_one_day_valid t Hv) as [_ Hord].
  rewrite !total_microseconds_split, Hord.
  unfold add_one_day.
  repeat (match goal with |- context [if ?b then _ else _] => destruct b end);
    simpl; lia.
Qed.

(** [now + timedelta(minutes=1)] is a valid datetime, sixty seconds later. *)
Lemma add_one_minute_valid (t : datetime) :
  valid_datetime t →
  valid_datetime (add_one_minute t) ∧
  total_microseconds (add_one_minute t) = total_microseconds t + 60000000.
Proof.
  intros Hv. pose proof Hv as (Hy & Hm & Hd & Hh & Hmi & Hs & Hu).
  unfold add_one_minute.
  destruct (Z.ltb_spec (minute t) 59) as [Hlt|Hge].
  { split; [unfold valid_datetime; simpl; lia|].
    unfold total_microseconds, toordinal; simpl. lia. }
  destruct (Z.ltb_spec (hour t) 23) as [Hhlt|Hhge].
  { split; [unfold valid_datetime; simpl; lia|].
    unfold total_microseconds, toordinal; simpl. lia. }
  destruct (add_one_day_valid t Hv) as [Hv' Hord].
  pose proof Hv' as (Hy' & Hm' & Hd' & _).
  unfold add_one_day in Hv', Hord, Hy', Hm', Hd'.
  destruct (day t <? days_in_month (year t) (month t));
    [|destruct (month t <? 12)];
    (split; [unfold valid_datetime; simpl in *; lia|]);
    rewrite !total_microseconds_split;
    unfold toordinal in *; simpl in *; lia.
Qed.

Lemma instant_add_one_minute (t : datetime) :
  valid_datetime t → instant (add_one_minute t) = instant t + 60000000.
Proof.
  intros Hv. destruct (add_one_minute_valid t Hv) as [_ Htot].
  unfold instant. rewrite Htot.
  assert (utcoffset (add_one_minute t) = utcoffset t) as ->; [|lia].
  unfold add_one_minute.
  repeat (match goal with |- context [if ?b then _ else _] => destruct b end);
    reflexivity.
Qed.

Lemma replace_17_01_valid (t : datetime) :
  valid_datetime t →
  valid_datetime (replace_17_01 t) ∧
  total_microseconds (replace_17_01 t) =
    toordinal t * 86400000000 + 61260000000.
Proof.
  intros (Hy & Hm & Hd & _).
  split; [unfold valid_datetime; simpl; lia|].
  rewrite total_microseconds_split. unfold toordinal. simpl. lia.
Qed.

(** The check is due from 17:01:00 on, whatever the date: [daily_check]
    compares the clock with 17:01 of the clock's own day. *)
Theorem due_from_17_01 (t : Tick) :
  valid_datetime (tick_now t) →
  due t = true ↔ 17 * 60 + 1 ≤ hour (tick_now t) * 60 + minute (tick_now t).
Proof.
  intros Hv. unfold due.
  destruct (replace_17_01_valid _ Hv) as [Hv' Htot].
  rewrite dt_geb_total_microseconds, Htot, total_microseconds_split
    by (assumption || reflexivity).
  destruct Hv as (_ & _ & _ & Hh & Hmi & Hs & Hu). lia.
Qed.

Lemma due_from_17_01_witness :
  due (tick_at (march 14 17 1 0) TimedOut []) = true ∧
  due (tick_at (march 14 17 0 59) TimedOut []) = false.
Proof.
  split.
  - apply due_from_17_01; [repeat split; vm_compute; congruence|simpl; lia].
  - reflexivity.
Defined.

(** [/next] always names a valid 17:01:00 that lies strictly ahead of the
    clock and at most 24 hours away: today's while the clock is before
    17:01, tomorrow's from 17:01:00 on (so exactly at 17:01:00.000000 it
    answers 24h 0m).  The hours and minutes shown are the remaining time
    rounded down to the minute. *)
Theorem next_slash_remaining_time (now : datetime) :
  valid_datetime now →
  let target := next_target (next_slash now) in
  let remaining := total_microseconds target - total_microseconds now in
  valid_datetime target ∧
  (hour target, minute target, second target, microsecond target)
    = (17, 1, 0, 0) ∧
  toordinal target =
    toordinal now + (if decide (hour now * 60 + minute now < 17 * 60 + 1)
                     then 0 else 1) ∧
  0 < remaining ≤ 86400000000 ∧
  0 ≤ next_hours (next_slash now) ≤ 24 ∧
  0 ≤ next_minutes (next_slash now) < 60 ∧
  0 ≤ remaining - (next_hours (next_slash now) * 3600000000
                   + next_minutes (next_slash now) * 60000000) < 60000000.
Proof.
  intros Hv. simpl.
  destruct (replace_17_01_valid _ Hv) as [Hv' Htot].
  pose proof (dt_geb_total_microseconds now (replace_17_01 now) Hv Hv'
                eq_refl) as Hgeb.
  rewrite Htot in Hgeb.
  pose proof (total_microseconds_split now) as Hnow.
  pose proof Hv as (_ & _ & _ & Hh & Hmi & Hs & Hu).
  set (tod := ((hour now * 60 + minute now) * 60 + second now) * 1000000
              + microsecond now) in *.
  assert (0 ≤ tod < 86400000000) as Htod by (unfold tod; lia).
  assert (hour now * 60 + minute now < 17 * 60 + 1 ↔ tod < 61260000000)
    as Hbefore by (unfold tod; lia).
  destruct (dt_geb now (replace_17_01 now)) eqn:Hdue.
  - assert (61260000000 ≤ tod) as Hge by (apply proj1 in Hgeb; lia).
    destruct (add_one_day_valid _ Hv') as [Hv'' Hord].
    pose proof (total_microseconds_add_one_day _ Hv') as Htot'.
    rewrite Htot in Htot'.
    assert (toordinal (replace_17_01 now) = toordinal now) as Hsame
      by reflexivity.
    rewrite Htot', Hnow. rewrite Hord, Hsame.
    split; [exact Hv''|].
    split.
    { unfold add_one_day, replace_17_01; simpl.
      repeat (match goal with
              | |- context [if ?b then _ else _] => destruct b end);
        reflexivity. }
    split; [case_decide; lia|].
    set (r := toordinal now * 86400000000 + 61260000000 + 86400000000
              - (toordinal now * 86400000000 + tod)).
    assert (r = 147660000000 - tod) as Hr by (unfold r; lia).
    clearbody r. subst r.
    split; [lia|].
    Z.div_mod_to_equations. lia.
  - assert (tod < 61260000000) as Hlt.
    { destruct (decide (tod < 61260000000)); [done|].
      assert (false = true) by (apply Hgeb; lia). discriminate. }
    rewrite Htot, Hnow.
    split; [exact Hv'|]. split; [reflexivity|].
    split; [change (toordinal (replace_17_01 now)) with (toordinal now);
            case_decide; lia|].
    set (r := toordinal now * 86400000000 + 61260000000
              - (toordinal now * 86400000000 + tod)).
    assert (r = 61260000000 - tod) as Hr by (unfold r; lia).
    clearbody r. subst r.
    split; [lia|].
    Z.div_mod_to_equations. lia.
Qed.

Lemma next_slash_remaining_time_witness :
  next_hours (next_slash (march 31 23 59 59)) = 17 ∧
  next_minutes (next_slash (march 31 23 59 59)) = 1 ∧
  toordinal (next_target (next_slash (march 31 23 59 59)))
    = toordinal (march 31 23 59 59) + 1.
Proof.
  destruct (next_slash_remaining_time (march 31 23 59 59))
    as (_ & _ & Hord & _); [repeat split; vm_compute; congruence|].
  split; [reflexivity|]. split; [reflexivity|]. exact Hord.
Defined.

(** ** More on confirmations *)

Lemma confirm_slash_cases (mention : string) (now : datetime) (st : State) :
  match pending_confirmations st !! mention with
  | Some expiry =>
      if dt_leb now expiry then
        (confirm_slash mention now st).1 = current_slash mention st ∧
        redisplayed (confirm_slash mention now st).1 = true ∧
        (confirm_slash mention now st).2 =
          set_pending_confirmations
            (delete mention (pending_confirmations st)) st
      else confirm_slash mention now st = ([MsgNoPendingConfirmation], st)
  | None => confirm_slash mention now st = ([MsgNoPendingConfirmation], st)
  end.
Proof.
  unfold confirm_slash, current_slash.
  destruct (pending_confirmations st !! mention) as [expiry|]; [|reflexivity].
  destruct (dt_leb now expiry); [|reflexivity]. simpl.
  destruct (make_embeds (posted_games st) (Some mention) false) eqn:Hemb;
    simpl; repeat split.
Qed.

Lemma confirm_slash_redisplayed (mention : string) (now : datetime)
    (st : State) :
  redisplayed (confirm_slash mention now st).1 = true ↔
  ∃ expiry, pending_confirmations st !! mention = Some expiry
            ∧ dt_leb now expiry = true.
Proof.
  pose proof (confirm_slash_cases mention now st) as Hc.
  destruct (pending_confirmations st !! mention) as [expiry|].
  - destruct (dt_leb now expiry) eqn:Hle.
    + destruct Hc as (_ & Hr & _). split; [eauto|done].
    + rewrite Hc. split; [done|]. intros (e & [= <-] & He). congruence.
  - rewrite Hc. split; [done|]. intros (e & He & _). discriminate.
Qed.

(** A confirmation stored by an unchanged manual check lasts sixty seconds
    of elapsed time from the clock reading of that check, both ends
    included, also across a change of the clock's offset: [/confirm] by the
    same caller re-displays exactly when the instant of its own clock
    reading is not more than sixty seconds past the instant of the check. *)
Theorem confirmation_lasts_sixty_seconds
    (ctx_mention : option string) (force : bool)
    (interaction_channel : option Channel) (env : Env) (st st' : State)
    (mention : string) (now : datetime) :
  run_check ctx_mention force interaction_channel env st
    = (Unchanged true, st') →
  ctx_mention = Some mention →
  valid_datetime (now_after env) → valid_datetime now →
  redisplayed (confirm_slash mention now st').1 = true ↔
  instant now ≤ instant (now_after env) + 60000000.
Proof.
  intros Hrun Hm Hv Hvnow.
  apply run_check_Unchanged_inv in Hrun as (_ & _ & _ & Harm).
  destruct Harm as (mention' & Hm' & _ & _ & Hpc).
  rewrite Hm in Hm'. injection Hm' as <-.
  destruct (add_one_minute_valid _ Hv) as [Hv' _].
  rewrite confirm_slash_redisplayed, Hpc, lookup_insert_eq.
  rewrite <- instant_add_one_minute, <- dt_leb_instant by assumption.
  split; [intros (e & [= <-] & He); exact He|eauto].
Qed.

(** The owner's [/check] of 30 March 2025 at 01:59:30 winter time finds
    nothing new; the clock then jumps from 02:00 to 03:00, and [/confirm] at
    03:00:10 summer time, forty seconds after the check, re-displays. *)
Lemma confirmation_lasts_sixty_seconds_witness :
  let env := env_at (march 30 1 59 30) (ok [titled "Alpha"] []) [a_guild] in
  let st' := (run_check (Some owner) false (Some general) env after_13_march).2
  in
  pending_confirmations st' !! owner = Some (march 30 2 0 30) ∧
  redisplayed (confirm_slash owner (march_summer 30 3 0 10) st').1 = true.
Proof.
  intros env st'. split; [vm_compute; reflexivity|].
  apply (confirmation_lasts_sixty_seconds (Some owner) false (Some general)
           env after_13_march st' owner (march_summer 30 3 0 10)).
  - vm_compute. reflexivity.
  - reflexivity.
  - repeat split; vm_compute; congruence.
  - repeat split; vm_compute; congruence.
  - vm_compute. congruence.
Defined.

(** A confirmation is used up by the [/confirm] that re-displays: the same
    caller's next [/confirm], at whatever time, re-displays nothing. *)
Theorem confirmation_is_consumed_once
    (mention : string) (now now' : datetime) (st : State) :
  redisplayed (confirm_slash mention now st).1 = true →
  confirm_slash mention now' (confirm_slash mention now st).2 =
  ([MsgNoPendingConfirmation], (confirm_slash mention now st).2).
Proof.
  intros Hred.
  pose proof (confirm_slash_cases mention now st) as Hc.
  apply confirm_slash_redisplayed in Hred as (expiry & Hlook & Hle).
  rewrite Hlook, Hle in Hc. destruct Hc as (_ & _ & Hst).
  pose proof (confirm_slash_cases mention now' (confirm_slash mention now st).2)
    as Hc'.
  rewrite Hst in Hc' |- *. simpl in Hc'.
  rewrite lookup_delete_eq in Hc'. exact Hc'.
Qed.

Lemma confirmation_is_consumed_once_witness :
  let first := confirm_slash owner (march 14 18 0 30) after_manual_check in
  (confirm_slash owner (march 14 18 0 30) first.2).1
    = [MsgNoPendingConfirmation].
Proof.
  intros first. unfold first.
  rewrite confirmation_is_consumed_once; [reflexivity|].
  vm_compute. reflexivity.
Defined.

(** [/confirm] reads and writes nothing but the caller's own confirmation:
    the stored lists, the date marker, both files, the event trace and every
    other caller's confirmation are as before; and what it re-displays is
    what [/current] would show the caller. *)
Theorem confirm_slash_touches_only_the_callers_entry
    (mention : string) (now : datetime) (st : State) :
  let reply := (confirm_slash mention now st).1 in
  let st' := (confirm_slash mention now st).2 in
  posted_games st' = posted_games st ∧
  posted_upcoming st' = posted_upcoming st ∧
  last_daily_run st' = last_daily_run st ∧
  POSTED_FILE st' = POSTED_FILE st ∧
  API_CALL_LOG st' = API_CALL_LOG st ∧
  events st' = events st ∧
  (∀ other, other ≠ mention →
     pending_confirmations st' !! other = pending_confirmations st !! other) ∧
  (reply = [MsgNoPendingConfirmation] ∨ reply = current_slash mention st).
Proof.
  simpl. pose proof (confirm_slash_cases mention now st) as Hc.
  destruct (pending_confirmations st !! mention) as [expiry|];
    [destruct (dt_leb now expiry)|]; try (rewrite Hc; simpl; by auto 10).
  destruct Hc as (Hreply & _ & ->). simpl.
  repeat split; try by auto.
  intros other Hne. by apply lookup_delete_ne.
Qed.

(** ** More on the scheduler and the call log *)

(** What [run_check] does to the call log is what its fetch does. *)
Lemma run_check_API_CALL_LOG (ctx_mention : option string) (force : bool)
    (interaction_channel : option Channel) (env : Env) (st : State) :
  API_CALL_LOG (run_check ctx_mention force interaction_channel env st).2 =
  Some {| log_count := Some (next_count (now_fetch env) st);
          log_month := Some (strftime_Ym (now_fetch env)) |}.
Proof.
  assert (API_CALL_LOG (fetch_games (now_fetch env) (response env) st).2 =
          Some {| log_count := Some (next_count (now_fetch env) st);
                  log_month := Some (strftime_Ym (now_fetch env)) |}) as Hlog.
  { by rewrite fetch_games_state, increment_api_calls_state. }
  rewrite run_check_unfold.
  destruct (fetch_games _ _ _).1 as [data|]; [|exact Hlog].
  destruct (payload_truthy data); simpl; [|exact Hlog].
  destruct (destinations interaction_channel env); [exact Hlog|].
  destruct (_ && _).
  - destruct ctx_mention, interaction_channel; try exact Hlog.
    destruct (truthy _); exact Hlog.
  - rewrite log_events_app. exact Hlog.
Qed.

Lemma get_api_call_count_run_check (ctx_mention : option string)
    (force : bool) (interaction_channel : option Channel) (env : Env)
    (st : State) :
  get_api_call_count (run_check ctx_mention force interaction_channel env st).2
  = (next_count (now_fetch env) st, Some (strftime_Ym (now_fetch env))).
Proof. unfold get_api_call_count. by rewrite run_check_API_CALL_LOG. Qed.

(** Within one month the call log counts the calls of [run_check], whatever
    their arguments and results: after [n] calls whose clock readings are
    all in month [m], the stored count is the count stored for [m] before
    (0 if another month or nothing was stored) plus [n]. *)
Theorem call_log_counts_every_check
    (m : month_str)
    (call : option string * bool * option Channel * Env)
    (calls : list (option string * bool * option Channel * Env)) (st : State) :
  Forall (λ c, strftime_Ym (now_fetch c.2) = m) (call :: calls) →
  API_CALL_LOG (run_checks (call :: calls) st) =
  Some {| log_count :=
            Some ((if decide ((get_api_call_count st).2 = Some m)
                   then (get_api_call_count st).1 else 0)
                  + Z.of_nat (length (call :: calls)));
          log_month := Some m |}.
Proof.
  revert call st. induction calls as [|c2 calls IH]; intros call st Hall.
  - destruct call as [[[cm f] ic] env].
    apply Forall_cons in Hall as [Hm _]. simpl in Hm |- *.
    rewrite run_check_API_CALL_LOG, Hm. unfold next_count. rewrite Hm.
    case_decide; do 3 f_equal; lia.
  - apply Forall_cons in Hall as [Hm Hall].
    destruct call as [[[cm f] ic] env]. simpl in Hm.
    change (run_checks ((cm, f, ic, env) :: c2 :: calls) st)
      with (run_checks (c2 :: calls) (run_check cm f ic env st).2).
    rewrite (IH c2 _ Hall).
    rewrite get_api_call_count_run_check, Hm. simpl.
    rewrite decide_True by reflexivity.
    unfold next_count. rewrite Hm.
    case_decide; do 3 f_equal; lia.
Qed.

Lemma call_log_counts_every_check_witness :
  let failing := (None, false, None,
                  env_at (march 14 17 1 0) TimedOut [a_guild]) in
  API_CALL_LOG (run_checks [failing; failing; failing] after_13_march) =
  Some {| log_count := Some 4; log_month := Some (2025, 3) |}.
Proof.
  intros failing.
  rewrite (call_log_counts_every_check (2025, 3)); [reflexivity|].
  repeat constructor.
Defined.

(** A scheduled check never stores or removes a confirmation. *)
Theorem daily_check_keeps_confirmations (t : Tick) (st : State) :
  pending_confirmations (daily_check t st).2 = pending_confirmations st.
Proof.
  destruct (daily_check t st) as [[r|] st'] eqn:Hdc; simpl.
  - apply daily_check_Some_inv in Hdc as (_ & _ & Hrun).
    destruct r as [|confirmed|cur upc].
    + by apply run_check_Failed_frame in Hrun as (_ & _ & _ & Hp & _).
    + apply run_check_Unchanged_inv in Hrun as (_ & _ & _ & Harm).
      destruct confirmed.
      * destruct Harm as (mention & Hm & _). discriminate.
      * by destruct Harm as [_ Hp].
    + by apply run_check_Changed_inv in Hrun
        as (p & _ & _ & _ & _ & _ & _ & _ & _ & _ & Hp & _).
  - unfold daily_check in Hdc.
    destruct (_ && _); [|by injection Hdc as <-].
    destruct (run_check _ _ _ _ _). discriminate.
Qed.

(** A check that takes the changed path, manual or scheduled, sets the date
    marker, so on the date it read after its fetch no tick of [daily_check]
    calls [run_check]: a manual [/check] that finds new games cancels that
    day's scheduled check. *)
Theorem changed_check_cancels_the_daily_check
    (ctx_mention : option string) (force : bool)
    (interaction_channel : option Channel) (env : Env) (st st' : State)
    (cur upc : list Game) (t : Tick) :
  run_check ctx_mention force interaction_channel env st
    = (Changed cur upc, st') →
  date (tick_now t) = date (now_after env) →
  daily_check t st' = (None, st').
Proof.
  intros Hrun Hd.
  apply run_check_Changed_inv in Hrun
    as (p & _ & _ & _ & _ & _ & _ & _ & _ & Hl & _).
  apply daily_check_skips. by rewrite Hl, Hd.
Qed.

Lemma changed_check_cancels_the_daily_check_witness :
  let env := env_at (march 14 9 0 0) (ok [titled "Beta"] []) [a_guild] in
  let st' := (run_check (Some owner) false (Some general) env after_13_march).2
  in
  daily_check (tick_at (march 14 17 1 0) (ok [titled "Gamma"] []) [a_guild]) st'
  = (None, st').
Proof.
  intros env st'.
  apply (changed_check_cancels_the_daily_check (Some owner) false
           (Some general) env after_13_march st' [titled "Beta"] []).
  - vm_compute. reflexivity.
  - reflexivity.
Defined.

Lemma daily_loop_skips (d : date_str) (ticks : list Tick) (st : State) :
  last_daily_run st = Some d →
  Forall (λ t, date (tick_now t) = d) ticks →
  daily_loop ticks st = (replicate (length ticks) None, st).
Proof.
  intros Hl Hall. induction Hall as [|t ticks Hd _ IH]; [reflexivity|].
  simpl. rewrite daily_check_skips by (by rewrite Hl, Hd).
  by rewrite IH.
Qed.

(** Over the ticks of one day, none of whose checks runs across midnight,
    the scheduler announces at most once: after a tick whose check took the
    changed path, no later tick of the day calls [run_check]. *)
Theorem at_most_one_change_per_day
    (d : date_str) (ticks : list Tick) (st : State)
    (before after : list (option ReconcileResult)) (cur upc : list Game) :
  Forall (λ t, date (tick_now t) = d ∧ date (now_after (tick_env t)) = d)
    ticks →
  (daily_loop ticks st).1 = before ++ Some (Changed cur upc) :: after →
  after = replicate (length after) None.
Proof.
  intros Hall. revert st before.
  induction Hall as [|t ticks [Hd Hd'] Hall IH]; intros st before Hrs.
  - by destruct before.
  - simpl in Hrs.
    destruct (daily_check t st) as [r st1] eqn:Hdc.
    destruct (daily_loop ticks st1) as [rs st2] eqn:Hloop. simpl in Hrs.
    destruct before as [|b before]; simpl in Hrs.
    + injection Hrs as -> ->.
      apply daily_check_Some_inv in Hdc as (_ & _ & Hrun).
      apply run_check_Changed_inv in Hrun
        as (p & _ & _ & _ & _ & _ & _ & _ & _ & Hl & _).
      rewrite Hd' in Hl.
      rewrite (daily_loop_skips d ticks st1 Hl) in Hloop.
      * injection Hloop as <- _. by rewrite length_replicate.
      * eapply Forall_impl; [exact Hall|]. by intros ? [? _].
    + injection Hrs as -> Hrs. apply (IH st1 before).
      by rewrite Hloop.
Qed.

Lemma at_most_one_change_per_day_witness :
  let ticks :=
    [tick_at (march 14 17 1 0) (ok [titled "Beta"] []) [a_guild];
     tick_at (march 14 17 16 0) (ok [titled "Gamma"] []) [a_guild];
     tick_at (march 14 17 31 0) (ok [titled "Delta"] []) [a_guild]] in
  (daily_loop ticks after_13_march).1
    = Some (Changed [titled "Beta"] []) :: [None; None] ∧
  [None; None] = replicate 2 (@None ReconcileResult).
Proof.
  intros ticks.
  assert ((daily_loop ticks after_13_march).1
          = [] ++ Some (Changed [titled "Beta"] []) :: [None; None]) as Hrs
    by (vm_compute; reflexivity).
  split; [exact Hrs|].
  apply (at_most_one_change_per_day (2025, 3, 14) ticks after_13_march []
           [None; None] [titled "Beta"] []); [|exact Hrs].
  repeat constructor.
Defined.

Lemma changed_daily_check_marks_the_day_witness :
  let t := tick_at (march 14 23 59 55) (ok [titled "Beta"] []) [a_guild] in
  let late :=
    {| tick_now := march 14 23 59 55;
       tick_env := {| now_fetch := march 14 23 59 55;
                      response := ok [titled "Beta"] [];
                      guilds := [a_guild];
                      now_after := march 15 0 0 3 |} |} in
  last_daily_run (daily_check late after_13_march).2 = Some (2025, 3, 15).
Proof.
  intros t late.
  destruct (changed_daily_check_marks_the_day late t after_13_march
              (daily_check late after_13_march).2 [titled "Beta"] [])
    as [Hl _]; [vm_compute; reflexivity|exact Hl].
Defined.

Lemma failed_daily_check_is_retried_witness :
  let t := tick_at (march 14 17 1 0) TimedOut [a_guild] in
  let t2 := tick_at (march 14 17 16 0) (ok [titled "Beta"] []) [a_guild] in
  (daily_check t2 (daily_check t after_13_march).2).1
    = Some (Changed [titled "Beta"] []).
Proof.
  intros t t2.
  destruct (failed_daily_check_is_retried t t2 after_13_march
              (daily_check t after_13_march).2) as [_ [r Hr]];
    [vm_compute; reflexivity|reflexivity|reflexivity|].
  vm_compute. reflexivity.
Defined.

(** ** Channels *)

Lemma first_free_games_channel_None (channels : list Channel) :
  first_free_games_channel channels = None ↔
  filter (λ channel, channel_name channel = CHANNEL_NAME) channels = [].
Proof.
  induction channels as [|c cs IH]; simpl; [done|].
  rewrite filter_cons. case_decide; [split; discriminate|exact IH].
Qed.

Lemma first_free_games_channel_Some (channels : list Channel) (c : Channel) :
  first_free_games_channel channels = Some c →
  head (filter (λ channel, channel_name channel = CHANNEL_NAME) channels)
  = Some c.
Proof.
  induction channels as [|c' cs IH]; simpl; [done|].
  rewrite filter_cons. case_decide; [by intros [= ->]|exact IH].
Qed.

(** [get_free_game_channels] returns exactly the text channels named
    free-games of the bot's guilds: none is left out, and nothing else is
    returned. *)
Theorem get_free_game_channels_spec (guilds : list Guild) (c : Channel) :
  c ∈ get_free_game_channels guilds ↔
  ∃ guild, (guild ∈ guilds) ∧ (c ∈ text_channels guild)
           ∧ channel_name c = CHANNEL_NAME.
Proof.
  unfold get_free_game_channels. rewrite list_elem_of_bind.
  split.
  - intros (guild & Hc & Hg). apply list_elem_of_filter in Hc as [Hn Hc].
    by exists guild.
  - intros (guild & Hg & Hc & Hn). exists guild. split; [|exact Hg].
    by apply list_elem_of_filter.
Qed.

Lemma get_free_game_channels_cons (guild : Guild) (guilds : list Guild) :
  get_free_game_channels (guild :: guilds) =
  filter (λ channel, channel_name channel = CHANNEL_NAME) (text_channels guild)
  ++ get_free_game_channels guilds.
Proof. reflexivity. Qed.

Lemma get_free_game_channels_one (guild : Guild) :
  get_free_game_channels [guild] = [] ↔
  first_free_games_channel (text_channels guild) = None.
Proof.
  rewrite first_free_games_channel_None, get_free_game_channels_cons.
  change (get_free_game_channels []) with (@nil Channel).
  by rewrite app_nil_r.
Qed.

Lemma scan_guilds_cons (guild : Guild) (guilds : list Guild) :
  scan_guilds (guild :: guilds) =
  match first_free_games_channel (text_channels guild) with
  | Some channel =>
      (channel_id channel :: (scan_guilds guilds).1, (scan_guilds guilds).2)
  | None => ((scan_guilds guilds).1, guild :: (scan_guilds guilds).2)
  end.
Proof. simpl. by destruct (scan_guilds guilds). Qed.

Lemma scan_guilds_without (guilds : list Guild) (guild : Guild) :
  guild ∈ (scan_guilds guilds).2 ↔
  (guild ∈ guilds) ∧ first_free_games_channel (text_channels guild) = None.
Proof.
  induction guilds as [|g gs IH].
  - simpl. split; [intros Hin|intros [Hin _]]; by apply elem_of_nil in Hin.
  - rewrite scan_guilds_cons, elem_of_cons.
    destruct (first_free_games_channel (text_channels g)) eqn:Hfirst; simpl.
    + rewrite IH. split; [intros [? ?]; auto|].
      intros [[->|Hin] Hnone]; [congruence|auto].
    + rewrite elem_of_cons, IH. split.
      * intros [->|[? ?]]; auto.
      * intros [[->|Hin] Hnone]; auto.
Qed.

Lemma scan_guilds_detected (guilds : list Guild) :
  ((scan_guilds guilds).1 = [] ↔ get_free_game_channels guilds = []) ∧
  (∀ id, id ∈ (scan_guilds guilds).1 →
         ∃ c, (c ∈ get_free_game_channels guilds) ∧ channel_id c = id) ∧
  (length (scan_guilds guilds).1 + length (scan_guilds guilds).2
   = length guilds)%nat ∧
  (length (scan_guilds guilds).1
   ≤ length (get_free_game_channels guilds))%nat.
Proof.
  induction guilds as [|g gs (IH2 & IH3 & IH4 & IH5)].
  - simpl. split; [done|]. split; [|split; [done|lia]].
    intros id Hin. by apply elem_of_nil in Hin.
  - rewrite scan_guilds_cons, get_free_game_channels_cons.
    destruct (first_free_games_channel (text_channels g)) as [c|] eqn:Hfirst;
      simpl.
    + pose proof (first_free_games_channel_Some _ _ Hfirst) as Hhead.
      destruct (filter _ (text_channels g)) as [|c' cs] eqn:Hf;
        [discriminate|]. injection Hhead as ->.
      split; [split; discriminate|]. split; [|split].
      * intros id Hin. apply elem_of_cons in Hin as [->|Hin].
        -- exists c. split; [left|reflexivity].
        -- destruct (IH3 id Hin) as (c0 & Hc0 & Hid). exists c0.
           split; [|exact Hid]. right. apply elem_of_app. by right.
      * lia.
      * simpl. rewrite length_app. lia.
    + apply first_free_games_channel_None in Hfirst as Hf. rewrite Hf. simpl.
      split; [exact IH2|]. split; [exact IH3|]. split; [lia|exact IH5].
Qed.

(** The scan of [on_ready] agrees with what [run_check] will find: a guild
    is listed as lacking the channel exactly when it contributes no
    destination, a channel is detected exactly when there is a destination,
    and each guild is counted once even if it has several such channels. *)
Theorem scan_guilds_agrees_with_destinations (guilds : list Guild) :
  (∀ guild, guild ∈ (scan_guilds guilds).2 ↔
            (guild ∈ guilds) ∧ get_free_game_channels [guild] = []) ∧
  ((scan_guilds guilds).1 = [] ↔ get_free_game_channels guilds = []) ∧
  (∀ id, id ∈ (scan_guilds guilds).1 →
         ∃ c, (c ∈ get_free_game_channels guilds) ∧ channel_id c = id) ∧
  (length (scan_guilds guilds).1 + length (scan_guilds guilds).2
   = length guilds)%nat ∧
  (length (scan_guilds guilds).1
   ≤ length (get_free_game_channels guilds))%nat.
Proof.
  split; [|apply scan_guilds_detected].
  intros guild. by rewrite scan_guilds_without, get_free_game_channels_one.
Qed.

(** The setup notice of [on_ready] goes only to guilds without a free-games
    channel that have at least one text channel, to the system channel if
    the guild has one and to its first text channel otherwise; a guild with
    no text channel gets none, whatever its system channel. *)
Theorem setup_notices_spec
    (system_channel_of : Guild → option Channel) (guilds : list Guild)
    (c : Channel) :
  c ∈ setup_notices system_channel_of guilds ↔
  ∃ guild first,
    (guild ∈ guilds) ∧ get_free_game_channels [guild] = [] ∧
    head (text_channels guild) = Some first ∧
    c = default first (system_channel_of guild).
Proof.
  unfold setup_notices. rewrite list_elem_of_omap.
  assert (∀ guild, guild ∈ (scan_guilds guilds).2 ↔
            (guild ∈ guilds) ∧ get_free_game_channels [guild] = []) as Hscan.
  { intros guild. by rewrite scan_guilds_without, get_free_game_channels_one. }
  split.
  - intros (guild & Hin & Htarget). apply Hscan in Hin as [Hin Hnone].
    unfold target_channel in Htarget.
    destruct (text_channels guild) as [|first rest] eqn:Htc; [discriminate|].
    exists guild, first. rewrite Htc. repeat split; try assumption.
    destruct (system_channel_of guild); by injection Htarget as <-.
  - intros (guild & first & Hin & Hnone & Hhead & ->).
    exists guild. split; [by apply Hscan|].
    unfold target_channel.
    destruct (text_channels guild) as [|first' rest]; [discriminate|].
    injection Hhead as ->. by destruct (system_channel_of guild).
Qed.

(** [/setup] creates the channel only in a guild that has no channel named
    free-games, when both the bot and the caller may manage channels and the
    platform accepts; otherwise it leaves the guild as it is.  After a
    creation the new channel is the guild's only destination for
    [run_check], and a second [/setup] answers that the channel exists and
    creates nothing. *)
Theorem setup_slash_creates_at_most_once
    (guild : option Guild) (me_manage_channels user_manage_channels : bool)
    (created : option Z) :
  let reply := (setup_slash guild me_manage_channels user_manage_channels
                  created).1 in
  let guild' := (setup_slash guild me_manage_channels user_manage_channels
                   created).2 in
  (∀ c, reply = ChannelCreated c ↔
        ∃ g, guild = Some g ∧ get_free_game_channels [g] = [] ∧
             me_manage_channels = true ∧ user_manage_channels = true ∧
             created = Some (channel_id c) ∧ channel_name c = CHANNEL_NAME) ∧
  ((∀ c, reply ≠ ChannelCreated c) → guild' = guild) ∧
  (∀ c, reply = ChannelCreated c →
        ∃ g', guild' = Some g' ∧ get_free_game_channels [g'] = [c] ∧
              ∀ me user created',
                setup_slash guild' me user created'
                = (ChannelAlreadyExists, guild')).
Proof.
  simpl. unfold setup_slash.
  destruct guild as [g|]; simpl.
  2:{ split; [|split]; [|done|discriminate].
      intros c. split; [discriminate|]. by intros (g & Hg & _). }
  pose proof (get_free_game_channels_one g) as Hone.
  destruct (first_free_games_channel (text_channels g)) as [c0|] eqn:Hfirst;
    simpl.
  { split; [|split]; [|done|discriminate].
    intros c. split; [discriminate|].
    intros (g' & [= <-] & Hnone & _). apply Hone in Hnone. discriminate. }
  destruct me_manage_channels; simpl.
  2:{ split; [|split]; [|done|discriminate].
      intros c. split; [discriminate|]. by intros (g' & _ & _ & ? & _). }
  destruct user_manage_channels; simpl.
  2:{ split; [|split]; [|done|discriminate].
      intros c. split; [discriminate|]. by intros (g' & _ & _ & _ & ? & _). }
  destruct created as [id|]; simpl.
  2:{ split; [|split]; [|done|discriminate].
      intros c. split; [discriminate|]. by intros (g' & _ & _ & _ & _ & ? & _). }
  split; [|split].
  - intros c. split.
    + intros [= <-]. exists g. simpl. repeat split. by apply Hone.
    + intros (g' & _ & _ & _ & _ & [= Hid] & Hname).
      destruct c as [cid cname]. simpl in *. by subst.
  - intros Hnot. by destruct (Hnot {| channel_id := id;
                                       channel_name := CHANNEL_NAME |}).
  - intros c [= <-]. eexists. split; [reflexivity|].
    apply first_free_games_channel_None in Hfirst.
    assert (get_free_game_channels
              [{| guild_name := guild_name g;
                  text_channels :=
                    text_channels g
                    ++ [{| channel_id := id; channel_name := CHANNEL_NAME |}] |}]
            = [{| channel_id := id; channel_name := CHANNEL_NAME |}]) as Hdest.
    { rewrite get_free_game_channels_cons. simpl.
      rewrite filter_app, Hfirst. reflexivity. }
    split; [exact Hdest|].
    intros me user created'. simpl.
    destruct (first_free_games_channel _) eqn:Hfirst'; [reflexivity|].
    pose proof (proj2 (get_free_game_channels_one
                         {| guild_name := guild_name g;
                            text_channels :=
                              text_channels g
                              ++ [{| channel_id := id;
                                     channel_name := CHANNEL_NAME |}] |})
                  Hfirst') as Hnone.
    rewrite Hdest in Hnone. discriminate.
Qed.

Lemma setup_slash_creates_at_most_once_witness :
  let after := setup_slash (Some a_guild_without_channel) true true (Some 7) in
  after.1 = ChannelCreated {| channel_id := 7; channel_name := CHANNEL_NAME |} ∧
  (setup_slash after.2 true true (Some 8)).1 = ChannelAlreadyExists.
Proof.
  intros after.
  destruct (setup_slash_creates_at_most_once (Some a_guild_without_channel)
              true true (Some 7)) as (_ & _ & Hagain).
  destruct (Hagain {| channel_id := 7; channel_name := CHANNEL_NAME |})
    as (g' & _ & _ & Hsecond); [reflexivity|].
  split; [reflexivity|]. unfold after. by rewrite Hsecond.
Defined.

(** ** More on the stored lists *)

(** The three outcomes of [run_check], as far as the stored lists, the date
    marker and the state file go: either all four are as before, or the
    changed path has committed the fetched payload. *)
Lemma run_check_stored (ctx_mention : option string) (force : bool)
    (interaction_channel : option Channel) (env : Env) (st : State) :
  let st' := (run_check ctx_mention force interaction_channel env st).2 in
  (posted_games st' = posted_games st ∧
   posted_upcoming st' = posted_upcoming st ∧
   last_daily_run st' = last_daily_run st ∧
   POSTED_FILE st' = POSTED_FILE st) ∨
  (∃ p, response env = HttpStatus 200 (JsonObject p) ∧
        committed (current_of p) (next_of p) (now_after env) st st').
Proof.
  simpl.
  destruct (run_check ctx_mention force interaction_channel env st)
    as [[|confirmed|cur upc] st'] eqn:Hrun; simpl.
  - left. apply run_check_Failed_frame in Hrun
      as (Hg & Hu & Hl & _ & Hf & _). auto.
  - left. apply run_check_Unchanged_inv in Hrun
      as (_ & _ & (Hg & Hu & Hl & Hf & _) & _). auto.
  - right. apply run_check_Changed_inv in Hrun
      as (p & Hresp & _ & _ & _ & -> & _ & Hc). eauto.
Qed.

(** An upcoming entry is never dropped for any other reason than its title
    having become a current title: after any call of [run_check] a stored
    upcoming entry is still stored, or its title is among the stored current
    titles. *)
Theorem upcoming_entry_leaves_only_when_current
    (ctx_mention : option string) (force : bool)
    (interaction_channel : option Channel) (env : Env) (st : State)
    (g : Game) :
  g ∈ posted_upcoming st →
  let st' := (run_check ctx_mention force interaction_channel env st).2 in
  (g ∈ posted_upcoming st') ∨ (title g ∈ (title <$> posted_games st')).
Proof.
  intros Hin. simpl.
  destruct (run_check_stored ctx_mention force interaction_channel env st)
    as [(_ & Hu & _)|(p & _ & Hg & Hu & _)].
  - left. by rewrite Hu.
  - rewrite Hg, Hu.
    destruct (decide (title g ∈ titles (current_of p))) as [Hcur|Hcur].
    + right. unfold titles in Hcur. by apply elem_of_list_to_set in Hcur.
    + left. apply elem_of_app. left. by apply elem_of_kept_upcoming.
Qed.

Lemma upcoming_entry_leaves_only_when_current_witness :
  let env := env_at (march 14 17 1 0) (ok [titled "Alpha"] []) [a_guild] in
  untitled "A" ∈ posted_upcoming
                   (run_check None false None env with_untitled_upcoming).2.
Proof.
  intros env.
  destruct (upcoming_entry_leaves_only_when_current None false None env
              with_untitled_upcoming (untitled "A")) as [Hin|Hcur].
  - vm_compute. left.
  - exact Hin.
  - exfalso. vm_compute in Hcur.
    apply list_elem_of_singleton in Hcur. discriminate.
Defined.

(** If the stored upcoming list has no title twice and the fetched upcoming
    list has no title twice, the upcoming list stored by the changed path
    has no title twice. *)
Theorem upcoming_titles_stay_distinct
    (ctx_mention : option string) (force : bool)
    (interaction_channel : option Channel) (env : Env) (st st' : State)
    (p : Payload) (cur upc : list Game) :
  response env = HttpStatus 200 (JsonObject p) →
  run_check ctx_mention force interaction_channel env st
    = (Changed cur upc, st') →
  NoDup (title <$> posted_upcoming st) →
  NoDup (title <$> next_of p) →
  NoDup (title <$> posted_upcoming st').
Proof.
  intros Hresp Hrun Hold Hnext.
  apply run_check_Changed_inv in Hrun
    as (p' & Hresp' & _ & _ & _ & -> & -> & _ & Hu & _).
  rewrite Hresp in Hresp'. injection Hresp' as <-.
  rewrite Hu, fmap_app. apply NoDup_app. split; [|split].
  - eapply sublist_NoDup; [exact Hold|].
    apply fmap_sublist. unfold kept_upcoming. apply sublist_filter.
  - intros k Hkept Hnew. apply list_elem_of_fmap in Hnew as (g & -> & Hg).
    by apply elem_of_new_upcoming in Hg as [[_ Hnot] _].
  - eapply sublist_NoDup; [exact Hnext|].
    apply fmap_sublist. unfold new_upcoming. apply sublist_filter.
Qed.

Lemma upcoming_titles_stay_distinct_witness :
  let env := env_at (march 14 17 1 0)
               (ok [titled "Beta"] [titled "Gamma"; titled "Delta"])
               [a_guild] in
  NoDup (title <$> posted_upcoming
                     (run_check None false None env after_13_march).2).
Proof.
  intros env.
  apply (upcoming_titles_stay_distinct None false None env after_13_march _
           (snapshot [titled "Beta"] [titled "Gamma"; titled "Delta"])
           [titled "Beta"] [titled "Gamma"; titled "Delta"]).
  - reflexivity.
  - vm_compute. reflexivity.
  - vm_compute. constructor.
  - apply (bool_decide_unpack _). vm_compute. exact I.
Defined.

(** ** More on the outcomes of [run_check] *)

Lemma run_check_Changed_events (ctx_mention : option string) (force : bool)
    (interaction_channel : option Channel) (env : Env) (st st' : State)
    (cur upc : list Game) :
  run_check ctx_mention force interaction_channel env st
    = (Changed cur upc, st') →
  ∃ f, POSTED_FILE st' = Some f ∧
       events st' =
         events st
         ++ [EvApiLogWrite (next_count (now_fetch env) st)
               (strftime_Ym (now_fetch env));
             EvHttpGet; EvPostedWrite f]
         ++ (destinations interaction_channel env ≫=
               post_to_channel (make_embeds cur ctx_mention false)
                               (make_embeds upc ctx_mention true)).
Proof.
  intros Hrun. pose proof Hrun as Hinv.
  apply run_check_Changed_inv in Hinv
    as (p & Hresp & Htruthy & Hdest & Hsame & -> & -> & _).
  rewrite run_check_unfold in Hrun.
  pose proof (fetch_games_frame (now_fetch env) (response env) st) as Hfr.
  simpl in Hfr. destruct Hfr as (Hg & Hu & _ & _ & _ & Hev).
  apply (fetch_games_data (now_fetch env) _ st) in Hresp.
  rewrite Hresp, Htruthy in Hrun. simpl in Hrun.
  destruct (destinations interaction_channel env) as [|c cs] eqn:Hd; [done|].
  rewrite Hg, Hu, Hsame in Hrun. simpl in Hrun.
  injection Hrun as <-. rewrite log_events_app. simpl.
  eexists. split; [reflexivity|].
  rewrite Hev, <- !app_assoc. reflexivity.
Qed.

(** On the changed path the state file is written once, after the request
    and before anything is posted; what follows are only messages to the
    destination channels, each of which gets the header of the current games
    when there are any, and nothing at all is posted when there is neither a
    current game nor a new upcoming game. *)
Theorem changed_check_saves_before_posting
    (ctx_mention : option string) (force : bool)
    (interaction_channel : option Channel) (env : Env) (st st' : State)
    (cur upc : list Game) :
  run_check ctx_mention force interaction_channel env st
    = (Changed cur upc, st') →
  ∃ f sends,
    POSTED_FILE st' = Some f ∧
    events st' =
      events st
      ++ [EvApiLogWrite (next_count (now_fetch env) st)
            (strftime_Ym (now_fetch env));
          EvHttpGet; EvPostedWrite f]
      ++ sends ∧
    (∀ e, e ∈ sends →
          ∃ c msg, e = EvSend c msg ∧ (c ∈ destinations interaction_channel env))
    ∧ (∀ c, c ∈ destinations interaction_channel env → cur ≠ [] →
            EvSend c MsgCurrentHeader ∈ sends)
    ∧ (cur = [] → upc = [] → sends = []).
Proof.
  intros Hrun.
  destruct (run_check_Changed_events _ _ _ _ _ _ _ _ Hrun) as (f & Hf & Hev).
  exists f. eexists. split; [exact Hf|]. split; [exact Hev|].
  split; [|split].
  - intros e He. apply list_elem_of_bind in He as (c & He & Hc).
    unfold post_to_channel in He. apply elem_of_app in He as [He|He].
    + destruct (make_embeds cur ctx_mention false) as [|e0 es];
        [by apply elem_of_nil in He|].
      apply elem_of_cons in He as [->|He]; [by eauto|].
      apply list_elem_of_fmap in He as (e1 & -> & _). eauto.
    + destruct (make_embeds upc ctx_mention true) as [|e0 es];
        [by apply elem_of_nil in He|].
      apply elem_of_cons in He as [->|He]; [by eauto|].
      apply list_elem_of_fmap in He as (e1 & -> & _). eauto.
  - intros c Hc Hcur. apply list_elem_of_bind. exists c. split; [|exact Hc].
    unfold post_to_channel. apply elem_of_app. left.
    destruct cur as [|g cur]; [done|]. simpl. left.
  - intros -> ->. simpl.
    induction (destinations interaction_channel env) as [|c cs IH];
      [reflexivity|]. by rewrite bind_cons, IH.
Qed.

Lemma changed_check_saves_before_posting_witness :
  let env := env_at (march 14 17 1 0) (ok [titled "Beta"] []) [a_guild] in
  EvSend free_games MsgCurrentHeader
    ∈ events (run_check None false None env after_13_march).2.
Proof.
  intros env.
  destruct (changed_check_saves_before_posting None false None env
              after_13_march (run_check None false None env after_13_march).2
              [titled "Beta"] [])
    as (f & sends & _ & Hev & _ & Hhead & _); [vm_compute; reflexivity|].
  rewrite Hev. apply elem_of_app. right. apply elem_of_app. right.
  apply Hhead; [vm_compute; left|discriminate].
Defined.

(** An answer of status 200 whose body is the empty object is handled like a
    failed fetch, not like an empty catalog: [run_check] returns [False] and
    the stored lists, the date marker and the state file stay as they are. *)
Theorem empty_object_is_a_failed_fetch
    (ctx_mention : option string) (force : bool)
    (interaction_channel : option Channel) (env : Env) (st : State) :
  response env =
    HttpStatus 200
      (JsonObject {| currentGames := None; nextGames := None;
                     other_keys := false |}) →
  (run_check ctx_mention force interaction_channel env st).1 = Failed ∧
  only_fetched (now_fetch env) st
    (run_check ctx_mention force interaction_channel env st).2.
Proof.
  intros Hresp. rewrite run_check_unfold.
  apply (fetch_games_data (now_fetch env) _ st) in Hresp. rewrite Hresp.
  simpl. split; [reflexivity|]. apply fetch_games_frame.
Qed.

Lemma empty_object_is_a_failed_fetch_witness :
  let env := env_at (march 14 17 1 0)
               (HttpStatus 200
                  (JsonObject {| currentGames := None; nextGames := None;
                                 other_keys := false |})) [a_guild] in
  (run_check None true None env after_13_march).1 = Failed ∧
  posted_games (run_check None true None env after_13_march).2
    = [titled "Alpha"].
Proof.
  intros env.
  destruct (empty_object_is_a_failed_fetch None true None env after_13_march)
    as (Hfailed & Hg & _); [reflexivity|].
  split; [exact Hfailed|]. rewrite Hg. reflexivity.
Defined.

(** A non-empty answer without current games, whether the key
    [currentGames] is missing or its list is empty, is taken as an empty
    catalog: when games are stored as current, [run_check] takes the changed
    path, stores an empty current list and writes it to the state file. *)
Theorem answer_without_current_games_clears_the_stored_ones
    (ctx_mention : option string) (force : bool)
    (interaction_channel : option Channel) (env : Env) (st : State)
    (p : Payload) :
  response env = HttpStatus 200 (JsonObject p) →
  payload_truthy p = true →
  current_of p = [] →
  destinations interaction_channel env ≠ [] →
  posted_games st ≠ [] →
  let result := run_check ctx_mention force interaction_channel env st in
  (∃ upc, result.1 = Changed [] upc) ∧
  posted_games result.2 = [] ∧
  file_current <$> POSTED_FILE result.2 = Some [].
Proof.
  intros Hresp Htruthy Hcur Hdest Hold. simpl.
  destruct (run_check_changed_path ctx_mention force interaction_channel env st
              p Hresp Htruthy Hdest) as (st' & Heq & Hg & _ & _ & _ & Hf).
  - apply andb_false_iff. left. rewrite Hcur.
    apply not_true_is_false. rewrite are_games_same_true.
    destruct (posted_games st) as [|g gs]; [done|].
    intros Heq. assert (title g ∈ titles (g :: gs)) as Hin.
    { apply elem_of_titles. exists g. split; [left|reflexivity]. }
    rewrite <- Heq in Hin. unfold titles in Hin. simpl in Hin.
    by apply not_elem_of_empty in Hin.
  - rewrite Heq, Hcur in *. simpl. rewrite Hf.
    split; [by eexists|]. split; [exact Hg|reflexivity].
Qed.

Lemma answer_without_current_games_clears_the_stored_ones_witness :
  let env := env_at (march 14 17 1 0)
               (HttpStatus 200
                  (JsonObject {| currentGames := None; nextGames := Some [];
                                 other_keys := false |})) [a_guild] in
  posted_games (run_check None false None env after_13_march).2 = [].
Proof.
  intros env.
  destruct (answer_without_current_games_clears_the_stored_ones None false
              None env after_13_march
              {| currentGames := None; nextGames := Some [];
                 other_keys := false |}) as (_ & Hg & _);
    [reflexivity|reflexivity|reflexivity|vm_compute; discriminate
     |vm_compute; discriminate|exact Hg].
Defined.

(** Without [force], a fetched list of current games whose titles are those
    stored, in another order, is not announced: neither the order of the
    items nor any field but the title is compared. *)
Theorem reordered_catalog_is_unchanged
    (ctx_mention : option string) (interaction_channel : option Channel)
    (env : Env) (st : State) (p : Payload) :
  response env = HttpStatus 200 (JsonObject p) →
  payload_truthy p = true →
  destinations interaction_channel env ≠ [] →
  (title <$> current_of p) ≡ₚ (title <$> posted_games st) →
  ∃ confirmed,
    (run_check ctx_mention false interaction_channel env st).1
      = Unchanged confirmed ∧
    untouched st (run_check ctx_mention false interaction_channel env st).2.
Proof.
  intros Hresp Htruthy Hdest Hperm.
  destruct (run_check_unchanged_path ctx_mention false interaction_channel
              env st p Hresp Htruthy Hdest)
    as (confirmed & st' & Heq & Hun & _).
  - rewrite andb_true_r. apply are_games_same_true.
    unfold titles. apply set_eq. intros k.
    rewrite !elem_of_list_to_set. by rewrite Hperm.
  - exists confirmed. rewrite Heq. by split.
Qed.

Lemma reordered_catalog_is_unchanged_witness :
  let stored :=
    (run_check None false None
       (env_at (march 13 17 1 0) (ok [titled "Alpha"; titled "Beta"] [])
          [a_guild])
       (load_posted None None)).2 in
  let env := env_at (march 14 17 1 0) (ok [titled "Beta"; titled "Alpha"] [])
               [a_guild] in
  ∃ confirmed,
    (run_check None false None env stored).1 = Unchanged confirmed ∧
    untouched stored (run_check None false None env stored).2.
Proof.
  intros stored env.
  apply (reordered_catalog_is_unchanged None None env stored
           (snapshot [titled "Beta"; titled "Alpha"] []));
    [reflexivity|reflexivity|vm_compute; discriminate|].
  vm_compute. apply perm_swap.
Defined.

(** ** The picture of an embed *)

Lemma key_images_loop_sources (wide_image : bool) (imgs : list KeyImage)
    (thumbnail_url : option string) :
  let result := key_images_loop wide_image imgs thumbnail_url in
  (result.1 = None ∨ (wide_image = true ∧
                      ∃ img, (img ∈ imgs) ∧ is_wide_type (img_type img) = true
                             ∧ result.1 = img_url img)) ∧
  (result.2 = thumbnail_url ∨
   ∃ img, (img ∈ imgs) ∧ img_type img = Some "Thumbnail"
          ∧ result.2 = img_url img).
Proof.
  revert thumbnail_url.
  induction imgs as [|img imgs IH]; intros thumbnail_url; simpl; [by auto|].
  destruct (wide_image && is_wide_type (img_type img)) eqn:Hwide; simpl.
  - apply andb_true_iff in Hwide as [-> Hty]. split; [right|by left].
    split; [reflexivity|]. exists img. split; [left|done].
  - case_bool_decide as Hthumb.
    + destruct (IH (img_url img)) as [Hi Ht]. split.
      * destruct Hi as [Hi|(Hw & i & Hin & Hty & Hi)]; [by left|right].
        split; [exact Hw|]. exists i. split; [by right|done].
      * right. destruct Ht as [Ht|(i & Hin & Hty & Ht)].
        -- exists img. split; [left|done].
        -- exists i. split; [by right|done].
    + destruct (IH thumbnail_url) as [Hi Ht]. split.
      * destruct Hi as [Hi|(Hw & i & Hin & Hty & Hi)]; [by left|right].
        split; [exact Hw|]. exists i. split; [by right|done].
      * destruct Ht as [Ht|(i & Hin & Hty & Ht)]; [by left|right].
        exists i. split; [by right|done].
Qed.

Lemma truthy_true (s : option string) :
  truthy s = true → ∃ url, s = Some url ∧ url ≠ "".
Proof.
  destruct s as [url|]; [|discriminate]. intros Ht.
  exists url. split; [reflexivity|]. by apply truthy_Some.
Qed.

(** An embed gets at most one picture, and its kind depends only on
    [wide_image]: with it (as every caller passes it) never a thumbnail,
    without it never an image.  The address used is always a non-empty
    string taken from one of the item's key images. *)
Theorem embed_picture_kind (wide_image : bool) (keyImages : list KeyImage) :
  (∀ url, embed_picture wide_image keyImages = SetThumbnail url →
          wide_image = false) ∧
  (∀ url, embed_picture wide_image keyImages = SetImage url →
          wide_image = true) ∧
  (∀ url, embed_picture wide_image keyImages = SetImage url
          ∨ embed_picture wide_image keyImages = SetThumbnail url →
          ∃ s img, url = Some s ∧ s ≠ "" ∧ (img ∈ keyImages)
                   ∧ img_url img = Some s).
Proof.
  unfold embed_picture.
  pose proof (key_images_loop_sources wide_image keyImages None) as [Hi Ht].
  destruct (key_images_loop wide_image keyImages None)
    as [image_url thumbnail_url]. simpl in Hi, Ht.
  assert (∀ s, thumbnail_url = Some s →
               ∃ img, (img ∈ keyImages) ∧ img_url img = Some s) as Hthumb.
  { intros s Hs. destruct Ht as [Ht|(img & Hin & _ & Ht)]; [congruence|].
    exists img. split; [exact Hin|congruence]. }
  assert (∀ s, image_url = Some s →
               ∃ img, (img ∈ keyImages) ∧ img_url img = Some s) as Himg.
  { intros s Hs. destruct Hi as [Hi|(_ & img & Hin & _ & Hi)]; [congruence|].
    exists img. split; [exact Hin|congruence]. }
  destruct wide_image; simpl.
  - destruct (truthy image_url) eqn:Hti; simpl.
    + rewrite Hti. split; [discriminate|]. split; [done|].
      intros url [[= <-]|?]; [|discriminate].
      destruct (truthy_true _ Hti) as (s & -> & Hs).
      destruct (Himg s eq_refl) as (img & Hin & Hurl). by exists s, img.
    + destruct (truthy thumbnail_url) eqn:Htt.
      * split; [discriminate|]. split; [done|].
        intros url [[= <-]|?]; [|discriminate].
        destruct (truthy_true _ Htt) as (s & -> & Hs).
        destruct (Hthumb s eq_refl) as (img & Hin & Hurl). by exists s, img.
      * split; [discriminate|]. split; [discriminate|].
        intros url [?|?]; discriminate.
  - destruct (truthy thumbnail_url) eqn:Htt.
    + split; [done|]. split; [discriminate|].
      intros url [?|[= <-]]; [discriminate|].
      destruct (truthy_true _ Htt) as (s & -> & Hs).
      destruct (Hthumb s eq_refl) as (img & Hin & Hurl). by exists s, img.
    + split; [discriminate|]. split; [discriminate|].
      intros url [?|?]; discriminate.
Qed.

Lemma key_images_loop_first_wide (pre post : list KeyImage) (w : KeyImage)
    (thumbnail_url : option string) :
  Forall (λ img, is_wide_type (img_type img) = false) pre →
  is_wide_type (img_type w) = true →
  key_images_loop true (pre ++ w :: post) thumbnail_url =
  (img_url w, (key_images_loop true pre thumbnail_url).2).
Proof.
  intros Hpre Hw. revert thumbnail_url.
  induction Hpre as [|img pre Himg _ IH]; intros thumbnail_url; simpl.
  - by rewrite Hw.
  - rewrite Himg. simpl. case_bool_decide; apply IH.
Qed.

(** With [wide_image], the first key image of a wide type decides: if it has
    an address, that address is the image of the embed, whatever key images
    come before or after it. *)
Theorem first_wide_image_is_shown (pre post : list KeyImage) (w : KeyImage) :
  Forall (λ img, is_wide_type (img_type img) = false) pre →
  is_wide_type (img_type w) = true →
  truthy (img_url w) = true →
  embed_picture true (pre ++ w :: post) = SetImage (img_url w).
Proof.
  intros Hpre Hw Hurl. unfold embed_picture.
  rewrite (key_images_loop_first_wide pre post w None Hpre Hw). simpl.
  rewrite Hurl. simpl. by rewrite Hurl.
Qed.

Lemma first_wide_image_is_shown_witness :
  embed_picture true
    [{| img_type := Some "Thumbnail"; img_url := Some "t.png" |};
     {| img_type := Some "OfferImageWide"; img_url := Some "wide.png" |};
     {| img_type := Some "DieselStoreFrontWide"; img_url := Some "late.png" |}]
  = SetImage (Some "wide.png").
Proof.
  apply (first_wide_image_is_shown
           [{| img_type := Some "Thumbnail"; img_url := Some "t.png" |}]
           [{| img_type := Some "DieselStoreFrontWide";
               img_url := Some "late.png" |}]
           {| img_type := Some "OfferImageWide"; img_url := Some "wide.png" |});
    [repeat constructor|reflexivity|reflexivity].
Defined.

Lemma key_images_loop_no_wide (imgs : list KeyImage)
    (thumbnail_url : option string) :
  Forall (λ img, is_wide_type (img_type img) = false) imgs →
  key_images_loop true imgs thumbnail_url =
  key_images_loop false imgs thumbnail_url.
Proof.
  intros Hall. revert thumbnail_url.
  induction Hall as [|img imgs Himg _ IH]; intros thumbnail_url; simpl;
    [reflexivity|].
  rewrite Himg. simpl. case_bool_decide; apply IH.
Qed.

(** With [wide_image] and no key image of a wide type, the thumbnail is used
    in its place: the embed shows as its image the address that it would
    show as thumbnail without [wide_image], and no picture if there is
    none. *)
Theorem thumbnail_stands_in_for_the_wide_image (keyImages : list KeyImage) :
  Forall (λ img, is_wide_type (img_type img) = false) keyImages →
  embed_picture true keyImages =
  match embed_picture false keyImages with
  | SetThumbnail url => SetImage url
  | other => other
  end.
Proof.
  intros Hall. unfold embed_picture.
  rewrite (key_images_loop_no_wide keyImages None Hall).
  pose proof (key_images_loop_sources false keyImages None) as [Hi _].
  destruct (key_images_loop false keyImages None)
    as [image_url thumbnail_url]. simpl in Hi.
  destruct Hi as [->|[? _]]; [|discriminate]. simpl.
  by destruct (truthy thumbnail_url).
Qed.

Lemma thumbnail_stands_in_for_the_wide_image_witness :
  embed_picture true
    [{| img_type := Some "Thumbnail"; img_url := Some "old.png" |};
     {| img_type := Some "Thumbnail"; img_url := Some "t.png" |}]
  = SetImage (Some "t.png").
Proof.
  rewrite thumbnail_stands_in_for_the_wide_image; [reflexivity|].
  repeat constructor.
Defined.

(** ** Clock readings, summed up *)

(** On valid clock readings the comparisons the script makes ([now <=
    expiry] in [/confirm], [now >= target_time] in [daily_check]) are the
    chronological ones, whatever the offsets of the two readings: they
    compare the instants, and two readings compare equal exactly when they
    are the same instant. *)
Theorem datetime_order_is_chronological (a b : datetime) :
  valid_datetime a → valid_datetime b →
  (dt_leb a b = true ↔ instant a ≤ instant b) ∧
  (dt_geb a b = true ↔ instant b ≤ instant a) ∧
  (dt_compare a b = Eq ↔ instant a = instant b).
Proof.
  intros Ha Hb.
  split; [by apply dt_leb_instant|].
  split; [by apply dt_geb_instant|].
  rewrite dt_compare_instant by assumption. apply Z.compare_eq_iff.
Qed.

(** 03:00:10 summer time is before 02:00:30 winter time of the same day,
    although its fields are the later ones. *)
Lemma datetime_order_is_chronological_witness :
  dt_leb (march_summer 30 3 0 10) (march 30 2 0 30) = true ∧
  fields_compare (march_summer 30 3 0 10) (march 30 2 0 30) = Gt.
Proof.
  destruct (datetime_order_is_chronological (march_summer 30 3 0 10)
              (march 30 2 0 30)) as (Hle & _);
    [repeat split; vm_compute; congruence
    |repeat split; vm_compute; congruence|].
  split; [|reflexivity]. apply Hle. vm_compute. congruence.
Defined.

(** The expiry [now + timedelta(minutes=1)] of a confirmation is a valid
    clock reading exactly sixty seconds after [now], across the end of the
    hour, the day, the month (leap years included) and the year. *)
Theorem expiry_is_sixty_seconds_later (now : datetime) :
  valid_datetime now →
  valid_datetime (add_one_minute now) ∧
  total_microseconds (add_one_minute now) = total_microseconds now + 60000000.
Proof. apply add_one_minute_valid. Qed.

Lemma expiry_is_sixty_seconds_later_witness :
  let leap_day := {| year := 2024; month := 2; day := 28; hour := 23;
                     minute := 59; second := 30; microsecond := 0;
                     utcoffset := 3600 |} in
  add_one_minute leap_day
  = {| year := 2024; month := 2; day := 29; hour := 0;
       minute := 0; second := 30; microsecond := 0; utcoffset := 3600 |} ∧
  total_microseconds (add_one_minute leap_day)
  = total_microseconds leap_day + 60000000.
Proof.
  intros leap_day. split; [reflexivity|].
  apply expiry_is_sixty_seconds_later. repeat split; vm_compute; congruence.
Defined.

(** ** When checks happen, summed up *)

(** A tick of [daily_check] calls [run_check] exactly when its clock reads
    17:01 or later and the date marker is not the clock's date; otherwise it
    does nothing at all: no request, no call counted, no state touched. *)
Theorem daily_check_runs_exactly_when_due (t : Tick) (st : State) :
  valid_datetime (tick_now t) →
  (is_Some (daily_check t st).1 ↔
   17 * 60 + 1 ≤ hour (tick_now t) * 60 + minute (tick_now t)
   ∧ last_daily_run st ≠ Some (date (tick_now t))) ∧
  ((daily_check t st).1 = None → (daily_check t st).2 = st).
Proof.
  intros Hv. rewrite <- (due_from_17_01 t Hv).
  unfold daily_check, due.
  destruct (dt_geb _ _); simpl.
  - case_bool_decide as Hmark; simpl.
    + destruct (run_check _ _ _ _ _) as [r st']. simpl.
      split; [|discriminate]. split; [done|by eexists].
    + split; [|done]. split; [by intros [? ?]|tauto].
  - split; [|done]. split; [by intros [? ?]|]. by intros [? _].
Qed.

Lemma daily_check_runs_exactly_when_due_witness :
  (daily_check (tick_at (march 14 17 0 59) (ok [titled "Beta"] []) [a_guild])
     after_13_march).1 = None ∧
  is_Some (daily_check
             (tick_at (march 14 17 1 0) (ok [titled "Beta"] []) [a_guild])
             after_13_march).1.
Proof.
  split; [reflexivity|].
  apply daily_check_runs_exactly_when_due;
    [repeat split; vm_compute; congruence|].
  split; [vm_compute; congruence|vm_compute; discriminate].
Defined.

(** A check that is given the caller's channel always has a destination: it
    returns [False] only when the fetch gave no data or the empty object,
    never for want of a free-games channel. *)
Theorem manual_check_fails_only_on_the_fetch
    (ctx_mention : option string) (force : bool) (channel : Channel)
    (env : Env) (st : State) :
  (run_check ctx_mention force (Some channel) env st).1 = Failed ↔
  ∀ p, response env = HttpStatus 200 (JsonObject p) → payload_truthy p = false.
Proof.
  rewrite run_check_unfold.
  destruct (fetch_games (now_fetch env) (response env) st).1 as [p|] eqn:Hdata.
  - apply fetch_games_data in Hdata as Hresp.
    destruct (payload_truthy p) eqn:Htruthy; simpl.
    + split.
      * destruct (_ && _); [|discriminate].
        destruct ctx_mention; [|discriminate].
        destruct (truthy _); discriminate.
      * intros Hall. specialize (Hall p Hresp). congruence.
    + split; [|done]. intros _ p' Hresp'.
      rewrite Hresp in Hresp'. by injection Hresp' as <-.
  - split; [|done]. intros _ p Hresp.
    apply (fetch_games_data (now_fetch env) _ st) in Hresp. congruence.
Qed.

(** ** What the display commands show after a check *)

Lemma elem_of_make_embeds (g : Game) (games : list Game)
    (ctx_mention : option string) (upcoming : bool) :
  g ∈ games →
  {| embed_game := g;
     embed_footer := if truthy ctx_mention then ctx_mention else None;
     embed_upcoming := upcoming |} ∈ make_embeds games ctx_mention upcoming.
Proof.
  intros Hin. unfold make_embeds. apply list_elem_of_fmap. by exists g.
Qed.

(** Every game a changed check announces is shown afterwards by the display
    commands: each announced current game by [/current], each announced
    upcoming game by [/upcoming], with the caller's mention as footer. *)
Theorem announced_games_are_shown_on_request
    (ctx_mention : option string) (force : bool)
    (interaction_channel : option Channel) (env : Env) (st st' : State)
    (cur upc : list Game) (mention : string) :
  run_check ctx_mention force interaction_channel env st
    = (Changed cur upc, st') →
  let footer := if truthy (Some mention) then Some mention else None in
  (∀ g, g ∈ cur →
        MsgEmbed {| embed_game := g; embed_footer := footer;
                    embed_upcoming := false |} ∈ current_slash mention st') ∧
  (∀ g, g ∈ upc →
        ∃ msgs, upcoming_slash mention st' = UpcomingGames msgs ∧
                MsgEmbed {| embed_game := g; embed_footer := footer;
                            embed_upcoming := true |} ∈ msgs).
Proof.
  intros Hrun. simpl.
  apply run_check_Changed_inv in Hrun
    as (p & _ & _ & _ & _ & _ & Hupc & Hg & Hu & _).
  rewrite <- Hupc in Hu. split.
  - intros g Hin. unfold current_slash. rewrite Hg.
    pose proof (elem_of_make_embeds g cur (Some mention) false Hin) as He.
    destruct (make_embeds cur (Some mention) false) as [|e es] eqn:Hemb;
      [by apply elem_of_nil in He|].
    right. apply list_elem_of_fmap. eexists. split; [reflexivity|exact He].
  - intros g Hin. unfold upcoming_slash. rewrite Hu.
    assert (g ∈ kept_upcoming cur (posted_upcoming st) ++ upc) as Hin'
      by (apply elem_of_app; by right).
    pose proof (elem_of_make_embeds g _ (Some mention) true Hin') as He.
    destruct (make_embeds _ (Some mention) true) as [|e es] eqn:Hemb;
      [by apply elem_of_nil in He|].
    eexists. split; [reflexivity|].
    right. apply list_elem_of_fmap. eexists. split; [reflexivity|exact He].
Qed.

Lemma announced_games_are_shown_on_request_witness :
  let env := env_at (march 14 17 1 0) (ok [titled "Beta"] [titled "Gamma"])
               [a_guild] in
  let st' := (run_check None false None env after_13_march).2 in
  MsgEmbed {| embed_game := titled "Beta"; embed_footer := Some owner;
              embed_upcoming := false |} ∈ current_slash owner st'.
Proof.
  intros env st'.
  destruct (announced_games_are_shown_on_request None false None env
              after_13_march st' [titled "Beta"] [titled "Gamma"] owner)
    as [Hcur _]; [vm_compute; reflexivity|].
  apply (Hcur (titled "Beta")). left.
Defined.
